(** * Retail customer churn dashboard: the aggregation and filtering logic

    A shallow embedding of [src/visualization_app.py].  The script loads one
    CSV of churn predictions into a pandas DataFrame, stops when the frame is
    empty, and otherwise emits four overview metrics, two bar charts and a
    threshold-filtered table of at-risk customers.

    Modelling conventions.
    - A DataFrame is the ordered list of its rows; a row is a record with the
      nine columns the script reads plus the remaining columns of the file.
    - A row always has the nine columns the data model requires, with an
      integer Customer ID, integer churn flags and a country label on every
      row.  A file that lacks one of them, or leaves such a cell blank, has no
      frame in this model.
    - A float64 cell is either NaN or the rational number it holds;
      comparisons of such numbers are exact.  The quotient of [mean()] and the
      product [* 100] are rounded as binary64 rounds them (to nearest, ties to
      even) by [B64.round]; [Binary64] checks it against the floats of the
      machine.  Rounded numbers are kept in lowest terms, so that equal
      numbers are equal terms.
    - An int64 cell is an integer; [sum()] wraps around at 64 bits.
    - [sort_values] is pandas' [nargsort], written out, over NumPy's
      [argsort].  The script does not pass [kind=], so the kernel is NumPy's
      default one, of which only "returns a sorting permutation" is
      documented.  The kernel is therefore a parameter of the model, with
      that contract ([argsort_contract]); two kernels are given: a plain
      insertion argsort ([argsort_insertion]), which is stable, and NumPy's
      scalar introsort ([npy_argsort]), which is not.  The scalar introsort
      is what NumPy runs where it dispatches no SIMD kernel; a SIMD kernel
      orders ties in yet another way.
    - The threshold is the value of the slider, a number between the
      slider's [min_value] and [max_value].
    - The Streamlit calls of one script run that carry data are collected in
      a log: the error messages, the metrics, the charts, the count line and
      the table or the sentence that stands for it.  Page configuration,
      title, headers, rules, column and tab containers and the closing note
      of line 152 are the same in every run that reaches them and are not
      logged.  [st.stop] and exceptions end the run. *)

From Stdlib Require Import String Ascii.
From Stdlib Require Import List Bool Arith ZArith QArith Qreduction Lia.
From Stdlib Require Import Qround Qpower Qabs Lqa.
From Stdlib Require Import Permutation Sorted.
From Stdlib Require Uint63 PrimFloat FloatOps SpecFloat.
Import ListNotations.

Local Open Scope Q_scope.

(** ** Cells, rows and frames *)

(** A float64 value: a finite number or NaN. *)
Inductive float64 : Type :=
| Fin (q : Q)
| NaN.

(** The number held by a float64 that is not NaN. *)
Definition fin_value (f : float64) : Q :=
  match f with
  | Fin q => q
  | NaN => 0
  end.

(** A cell of a column that the script only passes through. *)
Inductive cell : Type :=
| CInt (z : Z)
| CFloat (f : float64)
| CStr (s : string).

(** One row of [customer_churn_predictions.csv]. *)
Record Row : Type := mkRow {
  Customer_ID : Z;
  is_churned : Z;
  predicted_churn : Z;
  churn_probability : float64;
  Recency : float64;
  Frequency : Z;
  Monetary : float64;
  Tenure : float64;
  PrimaryCountry_Grouped_Original : string;
  other_columns : list (string * cell)
}.

Definition DataFrame : Type := list Row.

(** [df.empty] *)
Definition empty {A : Type} (df : list A) : bool :=
  match df with
  | [] => true
  | _ :: _ => false
  end.

(** The data model's constraints on a row: both churn flags are 0 or 1 and
    the probability is a number of [0, 1]. *)
Definition flag01 (z : Z) : bool := (0 <=? z)%Z && (z <=? 1)%Z.

Definition prob01 (f : float64) : bool :=
  match f with
  | Fin q => Qle_bool 0 q && Qle_bool q 1
  | NaN => false
  end.

Definition wf_row (r : Row) : bool :=
  flag01 (is_churned r) && flag01 (predicted_churn r) && prob01 (churn_probability r).

Definition wf_frame (df : DataFrame) : bool := forallb wf_row df.

(** ** Positional selection *)

(** [values[indexer]]: the elements of [l] at the positions [idx], in the
    order of [idx].  The positions come from [argsort] and are in range; a
    position out of range, which NumPy refuses, selects nothing here. *)
Definition take {A : Type} (l : list A) (idx : list nat) : list A :=
  flat_map (fun i => match nth_error l i with
                     | Some x => [x]
                     | None => []
                     end) idx.

(** ** pandas.core.sorting.nargsort *)

(** Positions and values of the non-NaN items, counting from [i]. *)
Fixpoint non_nan_from (i : nat) (items : list float64) : list (nat * Q) :=
  match items with
  | [] => []
  | Fin q :: rest => (i, q) :: non_nan_from (S i) rest
  | NaN :: rest => non_nan_from (S i) rest
  end.

(** Positions of the NaN items, counting from [i]. *)
Fixpoint nan_from (i : nat) (items : list float64) : list nat :=
  match items with
  | [] => []
  | Fin _ :: rest => nan_from (S i) rest
  | NaN :: rest => i :: nan_from (S i) rest
  end.

Section Sorting.

(** NumPy's [argsort] with the default kind, on NaN-free keys. *)
Variable argsort : list Q -> list nat.

(** [nargsort(items, kind="quicksort", ascending, na_position="last")] *)
Definition nargsort (items : list float64) (ascending : bool) : list nat :=
  let non_nans := map snd (non_nan_from 0 items) in
  let non_nan_idx := map fst (non_nan_from 0 items) in
  let nan_idx := nan_from 0 items in
  let non_nans := if ascending then non_nans else rev non_nans in
  let non_nan_idx := if ascending then non_nan_idx else rev non_nan_idx in
  let indexer := take non_nan_idx (argsort non_nans) in
  let indexer := if ascending then indexer else rev indexer in
  indexer ++ nan_idx.

(** [frame.sort_values(by=..., ascending=...)] on one column, and
    [series.sort_values(ascending=...)] with [by] the value of an entry. *)
Definition sort_values {A : Type} (by_ : A -> float64) (ascending : bool)
    (df : list A) : list A :=
  take df (nargsort (map by_ df) ascending).

End Sorting.

(** What NumPy documents of the default [argsort]: the result lists every
    position once, and reading the keys along it gives them in
    non-decreasing order.  The order of equal keys is left open. *)
Record argsort_contract (argsort : list Q -> list nat) : Prop := {
  argsort_perm : forall ks, Permutation (seq 0 (length ks)) (argsort ks);
  argsort_sorted : forall ks, StronglySorted Qle (take ks (argsort ks))
}.

(** ** Column operations *)

(** 64-bit two's complement wrap-around of NumPy's int64 arithmetic. *)
Definition int64_wrap (z : Z) : Z :=
  ((z + 2 ^ 63) mod 2 ^ 64 - 2 ^ 63)%Z.

Definition int64_add (a b : Z) : Z := int64_wrap (a + b).

(** [series.sum()] of an int64 column. *)
Definition sum (col : list Z) : Z := fold_right int64_add 0%Z col.

(** The exact total of a column, as accumulated in float64 by [mean]. *)
Definition total (col : list Z) : Z := fold_right Z.add 0%Z col.

(** Rounding to binary64: to the nearest number [m * 2^e] with [m] below
    [2^53] and [e] at least -1074, ties to the even [m].  Numbers beyond the
    largest binary64 do not arise from the means of int64 cells and their
    hundredfold, and are not told apart. *)
Module B64.

(** [2^e] *)
Definition pow2 (e : Z) : Q := Qpower 2 e.

(** The nearest integer, ties to even. *)
Definition round_half_even (x : Q) : Z :=
  let f := Qfloor x in
  match Qcompare (x - inject_Z f) (1 # 2) with
  | Lt => f
  | Gt => (f + 1)%Z
  | Eq => if Z.even f then f else (f + 1)%Z
  end.

(** The exponent [k] with [2^k <= a < 2^(k+1)], for [a] above 0. *)
Definition ilog2 (a : Q) : Z :=
  let k := (Z.log2 (Qnum a) - Z.log2 (Zpos (Qden a)))%Z in
  if Qle_bool (pow2 k) a then k else (k - 1)%Z.

Definition emin : Z := (-1074)%Z.

(** The exponent of the last bit of the significand of [a]. *)
Definition ulp_exp (a : Q) : Z := Z.max (ilog2 a - 52) emin.

Definition round_pos (a : Q) : Q :=
  inject_Z (round_half_even (a / pow2 (ulp_exp a))) * pow2 (ulp_exp a).

Definition round (q : Q) : Q :=
  Qred (match Qcompare q 0 with
        | Eq => 0
        | Gt => round_pos q
        | Lt => - round_pos (- q)
        end).

End B64.

(** [series.mean()] of an int64 column: NaN on an empty column, else the
    total divided by the number of rows, in binary64.  The total and the
    number of rows are exact in binary64 while they stay below 2^53, as they
    do for flags of 0 and 1 on fewer than 2^53 rows; the quotient is
    rounded. *)
Definition mean (col : list Z) : float64 :=
  match col with
  | [] => NaN
  | _ :: _ => Fin (B64.round (inject_Z (total col) / inject_Z (Z.of_nat (length col))))
  end.

(** The percentage [mean() * 100] of a column with total [s] and [n] rows on
    the floats of the machine, and the number a machine float holds.  They
    serve to check [B64.round] against the machine. *)
Module Binary64.

Definition of_Z (z : Z) : PrimFloat.float := PrimFloat.of_uint63 (Uint63.of_Z z).

Definition percent (s n : Z) : PrimFloat.float :=
  PrimFloat.mul (PrimFloat.div (of_Z s) (of_Z n)) (of_Z 100).

Definition to_Q (f : PrimFloat.float) : option Q :=
  match FloatOps.Prim2SF f with
  | SpecFloat.S754_zero _ => Some 0
  | SpecFloat.S754_finite s m e =>
      Some (Qred ((if s then - (1) else 1) * inject_Z (Zpos m) * B64.pow2 e))
  | _ => None
  end.

(** The pairs [(s, n)] with [0 <= s <= n] and [1 <= n <= N]. *)
Definition flag_counts (N : nat) : list (Z * Z) :=
  flat_map (fun n => map (fun s => (Z.of_nat s, Z.of_nat (S n))) (seq 0 (S (S n))))
           (seq 0 N).

Definition same_number (a : option Q) (b : Q) : bool :=
  match a with
  | Some x => Z.eqb (Qnum x) (Qnum b) && Pos.eqb (Qden x) (Qden b)
  | None => false
  end.

End Binary64.

(** [x * k] on a float64, for a [k] that binary64 holds: the product,
    rounded. *)
Definition float_mul (x : float64) (k : Q) : float64 :=
  match x with
  | Fin q => Fin (B64.round (q * k))
  | NaN => NaN
  end.

(** [x >= t]: false on NaN. *)
Definition float_ge (x : float64) (t : Q) : bool :=
  match x with
  | Fin q => Qle_bool t q
  | NaN => false
  end.

(** [series.nunique()] *)
Definition nunique (col : list Z) : nat := length (nodup Z.eq_dec col).

(** ** groupby *)

(** The group keys: the distinct labels of the column ([factorize]), put in
    sorted order ([sort=True]). *)
Fixpoint insert_key (c : string) (keys : list string) : list string :=
  match keys with
  | [] => [c]
  | k :: rest => if String.leb c k then c :: keys else k :: insert_key c rest
  end.

Definition group_keys (col : list string) : list string :=
  fold_right insert_key [] (nodup string_dec col).

(** [df.groupby(key)[val].mean()]: a series indexed by the group keys. *)
Definition groupby_mean (key : Row -> string) (val : Row -> Z) (df : DataFrame)
    : list (string * float64) :=
  map (fun k => (k, mean (map val (filter (fun r => String.eqb (key r) k) df))))
      (group_keys (map key df)).

(** ** Column selection *)

(** All columns of a row, by label. *)
Definition columns (r : Row) : list (string * cell) :=
  [ ("Customer ID", CInt (Customer_ID r));
    ("is_churned", CInt (is_churned r));
    ("predicted_churn", CInt (predicted_churn r));
    ("churn_probability", CFloat (churn_probability r));
    ("Recency", CFloat (Recency r));
    ("Frequency", CInt (Frequency r));
    ("Monetary", CFloat (Monetary r));
    ("Tenure", CFloat (Tenure r));
    ("PrimaryCountry_Grouped_Original", CStr (PrimaryCountry_Grouped_Original r)) ]%string
  ++ other_columns r.

Fixpoint lookup (c : string) (cols : list (string * cell)) : option cell :=
  match cols with
  | [] => None
  | (k, v) :: rest => if String.eqb k c then Some v else lookup c rest
  end.

(** The cells of one row under the labels [cols], in the order of [cols];
    [None] when a label is missing. *)
Fixpoint getitem_row (cols : list string) (r : Row) : option (list (string * cell)) :=
  match cols with
  | [] => Some []
  | c :: rest =>
      match lookup c (columns r), getitem_row rest r with
      | Some v, Some tl => Some ((c, v) :: tl)
      | _, _ => None
      end
  end.

Fixpoint getitem_rows (cols : list string) (df : DataFrame)
    : option (list (list (string * cell))) :=
  match df with
  | [] => Some []
  | r :: rest =>
      match getitem_row cols r, getitem_rows cols rest with
      | Some x, Some tl => Some (x :: tl)
      | _, _ => None
      end
  end.

(** ** One run of the script: the log of Streamlit calls *)

(** The exceptions of a run, each a subclass of [Exception], with their
    message. *)
Inductive exn : Type :=
| FileNotFoundError (msg : string)
| KeyError (msg : string)
| OtherException (msg : string).

(** [str(e)] *)
Definition str (e : exn) : string :=
  match e with
  | FileNotFoundError msg => msg
  | KeyError msg => msg
  | OtherException msg => msg
  end.

Inductive st_call : Type :=
| st_error (body : string)
| st_metric (label : string) (value : cell)
| st_plotly_chart (title : string) (data : list (string * float64))
| st_warning (body : string)
| st_info_showing (count : nat) (threshold : Q)
| st_dataframe (data : list (list (string * cell)))
| st_write (body : string).

Inductive outcome (A : Type) : Type :=
| Returned (a : A)
| Raised (e : exn)
| Stopped.

Arguments Returned {A} a.
Arguments Raised {A} e.
Arguments Stopped {A}.

(** A computation: the calls it made, and how it ended. *)
Definition M (A : Type) : Type := (list st_call * outcome A)%type.

Definition ret {A : Type} (a : A) : M A := ([], Returned a).

Definition bind {A B : Type} (m : M A) (k : A -> M B) : M B :=
  match m with
  | (log, Returned a) => let (log', o) := k a in (log ++ log', o)
  | (log, Raised e) => (log, Raised e)
  | (log, Stopped) => (log, Stopped)
  end.

Definition st (c : st_call) : M unit := ([c], Returned tt).

Definition raise {A : Type} (e : exn) : M A := ([], Raised e).

(** [st.stop()] *)
Definition st_stop {A : Type} : M A := ([], Stopped).

(** [try: m except ...: h e] where the clauses of [h] cover every exception. *)
Definition try_except {A : Type} (m : M A) (h : exn -> M A) : M A :=
  match m with
  | (log, Raised e) => let (log', o) := h e in (log ++ log', o)
  | _ => m
  end.

Notation "x <- m ;; k" := (bind m (fun x => k))
  (at level 61, m at next level, right associativity).
Notation "m ;; k" := (bind m (fun _ => k))
  (at level 61, right associativity).

(** [df[cols]] *)
Definition getitem (cols : list string) (df : DataFrame)
    : M (list (list (string * cell))) :=
  match getitem_rows cols df with
  | Some t => ret t
  | None => raise (KeyError "not in index")
  end.

(** What [pd.read_csv(data_path)] does in this run: the frame it returns or
    the exception it raises.  A frame has the columns of [Row] on every row:
    the [KeyError] of a column that the file lacks has no run here. *)
Definition source : Type := (DataFrame + exn)%type.

Definition pd_read_csv (src : source) : M DataFrame :=
  match src with
  | inl df => ret df
  | inr e => raise e
  end.

Definition msg_not_found : string :=
  "Error: 'customer_churn_predictions.csv' not found. Please ensure 02_feature_engineering.ipynb and 04_dashboard_insights.ipynb were run.".

Definition msg_unreadable (e : exn) : string :=
  "Error loading customer churn predictions data: " ++ str e.

Definition load_data (src : source) : M DataFrame :=
  try_except
    (df <- pd_read_csv src ;;
     ret df)
    (fun e =>
       match e with
       | FileNotFoundError _ =>
           st (st_error msg_not_found) ;;
           ret []
       | _ =>
           st (st_error (msg_unreadable e)) ;;
           ret []
       end).

(** What the user has set on a slider between [min_value] and [max_value]:
    a number of that range, the only numbers the widget gives back.  (The
    widget moves in steps; every number of the range is allowed here.) *)
Record slider_value (min_value max_value : Q) : Type := mk_slider_value {
  widget_value : Q;
  widget_in_range :
    Qle_bool min_value widget_value && Qle_bool widget_value max_value = true
}.

Arguments widget_value {min_value max_value} s.

(** [st.slider(label, min_value, max_value, value, step)]: the number the
    user has set, or [value] while nothing is set; a [value] outside the
    range is refused with an exception. *)
Definition st_slider (min_value max_value value step : Q)
    (ui : option (slider_value min_value max_value)) : M Q :=
  if Qle_bool min_value value && Qle_bool value max_value then
    match ui with
    | Some s => ret (widget_value s)
    | None => ret value
    end
  else raise (OtherException "The default value must lie between min_value and max_value.").

(** The threshold a run works with: what the slider of lines 112 to 119
    gives back. *)
Definition slider_threshold (ui : option (slider_value 0.0 1.0)) : Q :=
  match ui with
  | Some s => widget_value s
  | None => 0.5
  end.

Definition feature_importance_df : list (string * float64) :=
  combine ["Recency"; "Frequency"; "Monetary"; "Tenure"]%string
          [Fin 0.40; Fin 0.30; Fin 0.20; Fin 0.10].

Definition display_cols : list string :=
  [ "Customer ID"; "churn_probability"; "predicted_churn";
    "Recency"; "Frequency"; "Monetary"; "Tenure";
    "PrimaryCountry_Grouped_Original" ]%string.

Section Script.

Variable argsort : list Q -> list nat.

Definition total_customers (df_features : DataFrame) : nat :=
  nunique (map Customer_ID df_features).

Definition actual_churn_rate (df_features : DataFrame) : float64 :=
  float_mul (mean (map is_churned df_features)) 100.

Definition predicted_churn_rate (df_features : DataFrame) : float64 :=
  float_mul (mean (map predicted_churn df_features)) 100.

Definition predicted_churners (df_features : DataFrame) : Z :=
  sum (map predicted_churn df_features).

Definition churn_by_country (df_features : DataFrame) : list (string * float64) :=
  let churn_by_country :=
    sort_values argsort snd false
      (groupby_mean PrimaryCountry_Grouped_Original is_churned df_features) in
  map (fun e => (fst e, float_mul (snd e) 100)) churn_by_country.

Definition at_risk_customers_filtered (df_features : DataFrame) (churn_threshold : Q)
    : DataFrame :=
  sort_values argsort churn_probability false
    (filter (fun r => float_ge (churn_probability r) churn_threshold) df_features).

(** The at-risk section of the page, lines 121 to 148. *)
Definition at_risk_section (df_features : DataFrame) (churn_threshold : Q) : M unit :=
  let at_risk := at_risk_customers_filtered df_features churn_threshold in
  st (st_info_showing (length at_risk) churn_threshold) ;;
  if negb (empty at_risk) then
    shown <- getitem display_cols at_risk ;;
    st (st_dataframe (firstn 500 shown))
  else
    st (st_write "No customers identified as 'at-risk' with the current threshold.").

(** The whole script.  [ui] is what the user has set on the threshold
    slider, if anything.  Calls that only lay out fixed text (title, headers,
    captions, the closing note) are left out of the log, as are number
    formats and colours. *)
Definition script (src : source) (ui : option (slider_value 0.0 1.0)) : M unit :=
  df_features <- load_data src ;;
  (if empty df_features then st_stop else ret tt) ;;
  st (st_metric "Total Customers" (CInt (Z.of_nat (total_customers df_features)))) ;;
  st (st_metric "Actual Churn Rate" (CFloat (actual_churn_rate df_features))) ;;
  st (st_metric "Predicted Churn Rate" (CFloat (predicted_churn_rate df_features))) ;;
  st (st_metric "Predicted Churners" (CInt (predicted_churners df_features))) ;;
  (if negb (empty feature_importance_df) then
     st (st_plotly_chart "Top 10 Feature Importances" (firstn 10 feature_importance_df))
   else
     st (st_warning "Feature importance data not available for the loaded model.")) ;;
  st (st_plotly_chart "Churn Rate by Country Group" (churn_by_country df_features)) ;;
  churn_threshold <- st_slider 0.0 1.0 0.5 0.01 ui ;;
  at_risk_section df_features churn_threshold.

End Script.

(** ** Two argsort kernels *)

(** [v[i]] of the key array. *)
Definition key (v : list Q) (i : nat) : Q := nth i v 0.

(** *** Insertion argsorts

    Positions are inserted from the last to the first, each in front of the
    first position that [before] puts it before.  With [<=] a position goes
    in front of the later positions of equal key: a stable kernel.  With [<]
    it goes behind them: a kernel that turns ties around. *)
Fixpoint insert_pos (before : Q -> Q -> bool) (v : list Q) (i : nat) (idx : list nat)
    : list nat :=
  match idx with
  | [] => [i]
  | j :: rest =>
      if before (key v i) (key v j) then i :: idx
      else j :: insert_pos before v i rest
  end.

Definition argsort_by (before : Q -> Q -> bool) (v : list Q) : list nat :=
  fold_right (insert_pos before v) [] (seq 0 (length v)).

Definition argsort_insertion : list Q -> list nat := argsort_by Qle_bool.

Definition argsort_insertion_late : list Q -> list nat :=
  argsort_by (fun a b => negb (Qle_bool b a)).

(** *** NumPy's scalar [aquicksort] (npysort/quicksort.cpp)

    The index array [tosort] is a list of positions; the pointers [pl], [pr],
    [pi], [pj], [pk], [pm] into it are offsets in [Z].  Loops carry a fuel
    bound of the array length, which they never exhaust.

    A range of at most 16 positions is sorted by insertion, which leaves
    equal keys in place.  A longer range is partitioned first, and the
    partition exchanges entries whose keys equal the pivot: this is where
    ties lose their order. *)
Module Npy.

Local Open Scope Z_scope.

Definition SMALL_QUICKSORT : Z := 15.

(** [Tag::less(a, b)] on non-NaN doubles *)
Definition less (a b : Q) : bool := negb (Qle_bool b a).

(** [*p] *)
Definition tget (tosort : list nat) (p : Z) : nat :=
  nth (Z.to_nat p) tosort 0%nat.

Fixpoint upd (tosort : list nat) (n : nat) (x : nat) : list nat :=
  match tosort, n with
  | [], _ => []
  | _ :: rest, O => x :: rest
  | y :: rest, S n' => y :: upd rest n' x
  end.

(** [*p = x] *)
Definition tset (tosort : list nat) (p : Z) (x : nat) : list nat :=
  upd tosort (Z.to_nat p) x.

(** [INTP_SWAP]: exchange the entries at [p] and [q]. *)
Definition swap (tosort : list nat) (p q : Z) : list nat :=
  tset (tset tosort p (tget tosort q)) q (tget tosort p).

(** [do { ++pi; } while (less(v[*pi], vp));] *)
Fixpoint scan_up (fuel : nat) (v : list Q) (tosort : list nat) (vp : Q) (pi : Z) : Z :=
  let pi := pi + 1 in
  match fuel with
  | O => pi
  | S fuel' =>
      if less (key v (tget tosort pi)) vp then scan_up fuel' v tosort vp pi else pi
  end.

(** [do { --pj; } while (less(vp, v[*pj]));] *)
Fixpoint scan_down (fuel : nat) (v : list Q) (tosort : list nat) (vp : Q) (pj : Z) : Z :=
  let pj := pj - 1 in
  match fuel with
  | O => pj
  | S fuel' =>
      if less vp (key v (tget tosort pj)) then scan_down fuel' v tosort vp pj else pj
  end.

(** The [for (;;)] loop of the partition. *)
Fixpoint partition_loop (fuel : nat) (v : list Q) (tosort : list nat) (vp : Q)
    (pi pj : Z) : list nat * Z :=
  match fuel with
  | O => (tosort, pi)
  | S fuel' =>
      let pi := scan_up (length tosort) v tosort vp pi in
      let pj := scan_down (length tosort) v tosort vp pj in
      if pi >=? pj then (tosort, pi)
      else partition_loop fuel' v (swap tosort pi pj) vp pi pj
  end.

(** One quicksort partition of [pl .. pr]: median of three, then the pivot
    parked at [pr - 1]; returns the array and the pivot's final place. *)
Definition partition (v : list Q) (tosort : list nat) (pl pr : Z) : list nat * Z :=
  let pm := pl + Z.shiftr (pr - pl) 1 in
  let tosort :=
    if less (key v (tget tosort pm)) (key v (tget tosort pl))
    then swap tosort pm pl else tosort in
  let tosort :=
    if less (key v (tget tosort pr)) (key v (tget tosort pm))
    then swap tosort pr pm else tosort in
  let tosort :=
    if less (key v (tget tosort pm)) (key v (tget tosort pl))
    then swap tosort pm pl else tosort in
  let vp := key v (tget tosort pm) in
  let pi := pl in
  let pj := pr - 1 in
  let tosort := swap tosort pm pj in
  let '(tosort, pi) := partition_loop (length tosort) v tosort vp pi pj in
  let pk := pr - 1 in
  (swap tosort pi pk, pi).

(** [while (pj > pl && less(vp, v[*pk])) { *pj-- = *pk--; }] *)
Fixpoint shift (fuel : nat) (v : list Q) (tosort : list nat) (pl : Z) (vp : Q)
    (pj : Z) : list nat * Z :=
  match fuel with
  | O => (tosort, pj)
  | S fuel' =>
      if (pj >? pl) && less vp (key v (tget tosort (pj - 1)))
      then shift fuel' v (tset tosort pj (tget tosort (pj - 1))) pl vp (pj - 1)
      else (tosort, pj)
  end.

(** The insertion sort of [pl .. pr], from [pi] on. *)
Fixpoint insertion_from (fuel : nat) (v : list Q) (tosort : list nat) (pl pr pi : Z)
    : list nat :=
  match fuel with
  | O => tosort
  | S fuel' =>
      if pi <=? pr then
        let vi := tget tosort pi in
        let vp := key v vi in
        let '(tosort, pj) := shift (length tosort) v tosort pl vp pi in
        insertion_from fuel' v (tset tosort pj vi) pl pr (pi + 1)
      else tosort
  end.

Definition insertion (v : list Q) (tosort : list nat) (pl pr : Z) : list nat :=
  insertion_from (length tosort) v tosort pl pr (pl + 1).

(** [aheapsort_]: the heap is [a[1 .. n]] with [a = tosort + pl - 1]. *)
Definition aget (tosort : list nat) (pl k : Z) : nat := tget tosort (pl + k - 1).

Definition aset (tosort : list nat) (pl k : Z) (x : nat) : list nat :=
  tset tosort (pl + k - 1) x.

(** The sift-down loop [for (i, j; j <= n;) ...] followed by [a[i] = tmp]. *)
Fixpoint sift (fuel : nat) (v : list Q) (tosort : list nat) (pl n : Z) (tmp : nat)
    (i j : Z) : list nat :=
  match fuel with
  | O => aset tosort pl i tmp
  | S fuel' =>
      if j <=? n then
        let j :=
          if (j <? n) && less (key v (aget tosort pl j)) (key v (aget tosort pl (j + 1)))
          then j + 1 else j in
        if less (key v tmp) (key v (aget tosort pl j))
        then sift fuel' v (aset tosort pl i (aget tosort pl j)) pl n tmp j (j + j)
        else aset tosort pl i tmp
      else aset tosort pl i tmp
  end.

(** [for (l = n >> 1; l > 0; --l)] *)
Fixpoint heapify (fuel : nat) (v : list Q) (tosort : list nat) (pl n l : Z) : list nat :=
  match fuel with
  | O => tosort
  | S fuel' =>
      if l >? 0 then
        let tmp := aget tosort pl l in
        heapify fuel' v (sift (length tosort) v tosort pl n tmp l (Z.shiftl l 1)) pl n (l - 1)
      else tosort
  end.

(** [for (; n > 1;)] *)
Fixpoint heap_extract (fuel : nat) (v : list Q) (tosort : list nat) (pl n : Z) : list nat :=
  match fuel with
  | O => tosort
  | S fuel' =>
      if n >? 1 then
        let tmp := aget tosort pl n in
        let tosort := aset tosort pl n (aget tosort pl 1) in
        let n := n - 1 in
        heap_extract fuel' v (sift (length tosort) v tosort pl n tmp 1 2) pl n
      else tosort
  end.

Definition aheapsort (v : list Q) (tosort : list nat) (pl n : Z) : list nat :=
  let tosort := heapify (length tosort) v tosort pl n (Z.shiftr n 1) in
  heap_extract (length tosort) v tosort pl n.

(** The pending partitions: [(pl, pr)] with the depth budget for it. *)
Definition stack : Type := list (Z * Z * Z).

(** [while ((pr - pl) > SMALL_QUICKSORT)]: partition, push the larger side,
    go on with the smaller. *)
Fixpoint partition_while (fuel : nat) (v : list Q) (tosort : list nat) (pl pr : Z)
    (sptr : stack) (cdepth : Z) : list nat * Z * Z * stack :=
  match fuel with
  | O => (tosort, pl, pr, sptr)
  | S fuel' =>
      if pr - pl >? SMALL_QUICKSORT then
        let '(tosort, pi) := partition v tosort pl pr in
        let cdepth := cdepth - 1 in
        if pi - pl <? pr - pi
        then partition_while fuel' v tosort pl (pi - 1) ((pi + 1, pr, cdepth) :: sptr) cdepth
        else partition_while fuel' v tosort (pi + 1) pr ((pl, pi - 1, cdepth) :: sptr) cdepth
      else (tosort, pl, pr, sptr)
  end.

(** The outer [while (1)] loop with its [stack_pop] exit. *)
Fixpoint aquicksort_loop (fuel : nat) (v : list Q) (tosort : list nat) (pl pr : Z)
    (sptr : stack) (cdepth : Z) : list nat :=
  match fuel with
  | O => tosort
  | S fuel' =>
      let '(tosort, sptr) :=
        if cdepth <? 0 then (aheapsort v tosort pl (pr - pl + 1), sptr)
        else
          let '(tosort, pl, pr, sptr) :=
            partition_while (length tosort) v tosort pl pr sptr cdepth in
          (insertion v tosort pl pr, sptr) in
      match sptr with
      | [] => tosort
      | (pl, pr, cdepth) :: sptr => aquicksort_loop fuel' v tosort pl pr sptr cdepth
      end
  end.

(** [npy_get_msb(num)] *)
Definition npy_get_msb (num : Z) : Z := Z.log2 num.

Definition aquicksort (v : list Q) (tosort : list nat) (num : Z) : list nat :=
  aquicksort_loop (S (length tosort)) v tosort 0 (num - 1) [] (npy_get_msb num * 2).

End Npy.

(** [np.argsort(v, kind="quicksort")] where NumPy dispatches no SIMD kernel:
    [aquicksort] on [arange(len(v))]. *)
Definition npy_argsort (v : list Q) : list nat :=
  Npy.aquicksort v (seq 0 (length v)) (Z.of_nat (length v)).

(** ** The at-risk list as the specification words it

    Filter on [churn_probability >= threshold], then sort descending with
    ties kept in the order of the dataset: an insertion sort that puts a row
    in front of the rows after it whose probability is not larger. *)
Definition prob_value (r : Row) : Q := fin_value (churn_probability r).

Fixpoint insert_desc (r : Row) (sorted : list Row) : list Row :=
  match sorted with
  | [] => [r]
  | x :: rest =>
      if Qle_bool (prob_value x) (prob_value r) then r :: sorted
      else x :: insert_desc r rest
  end.

Definition atRiskCustomers_spec (D : DataFrame) (threshold : Q) : list Row :=
  fold_right insert_desc []
    (filter (fun r => float_ge (churn_probability r) threshold) D).


(** Rows of one probability keep their dataset order: for each probability
    at or above the threshold, the rows of [result] with it are the rows of
    [D] with it, in the same sequence. *)
Definition ties_keep_dataset_order (D result : list Row) (threshold : Q) : Prop :=
  forall q, threshold <= q ->
    filter (fun r => Qeq_bool (prob_value r) q) result =
    filter (fun r => Qeq_bool (prob_value r) q) D.

(** The eight cells of a row that the at-risk table shows. *)
Definition displayed_row (r : Row) : list (string * cell) :=
  [ ("Customer ID", CInt (Customer_ID r));
    ("churn_probability", CFloat (churn_probability r));
    ("predicted_churn", CInt (predicted_churn r));
    ("Recency", CFloat (Recency r));
    ("Frequency", CInt (Frequency r));
    ("Monetary", CFloat (Monetary r));
    ("Tenure", CFloat (Tenure r));
    ("PrimaryCountry_Grouped_Original", CStr (PrimaryCountry_Grouped_Original r)) ]%string.

(** A call that only reports a message of [load_data]. *)
Definition is_st_error (c : st_call) : Prop := exists body, c = st_error body.

(** ** Sample datasets *)

Definition customer (id churned predicted : Z) (p : Q) (country : string) : Row :=
  {| Customer_ID := id;
     is_churned := churned;
     predicted_churn := predicted;
     churn_probability := Fin p;
     Recency := Fin 30;
     Frequency := 4;
     Monetary := Fin 250;
     Tenure := Fin 365;
     PrimaryCountry_Grouped_Original := country;
     other_columns := [("AvgBasketValue"%string, CFloat (Fin 62.5))] |}.

(** Ten customers, three of them churned. *)
Definition scenario_A : DataFrame :=
  [ customer 1 1 1 0.9 "UK"; customer 2 0 0 0.2 "UK"; customer 3 0 0 0.1 "UK";
    customer 4 1 1 0.8 "UK"; customer 5 0 1 0.6 "UK"; customer 6 0 0 0.3 "UK";
    customer 7 1 0 0.4 "UK"; customer 8 0 0 0.2 "UK"; customer 9 0 0 0.1 "UK";
    customer 10 0 0 0.0 "UK" ].

(** UK: five rows, two churned.  France: three rows, all churned. *)
Definition scenario_B : DataFrame :=
  [ customer 1 1 1 0.9 "UK"; customer 2 0 0 0.2 "UK"; customer 3 1 1 1.0 "France";
    customer 4 1 1 0.8 "UK"; customer 5 1 1 0.7 "France"; customer 6 0 0 0.3 "UK";
    customer 7 1 0 0.4 "France"; customer 8 0 1 0.5 "UK" ].

(** Six hundred customers at or above 0.5 and one hundred below. *)
Definition scenario_C : DataFrame :=
  map (fun i => customer (Z.of_nat i) 1 1 (Z.of_nat (600 + i) # 1200) "UK") (seq 0 600)
  ++ map (fun i => customer (Z.of_nat (600 + i)) 0 0 0.25 "France") (seq 0 100).


(** Forty-eight keys on which the introsort uses up its depth budget and
    hands a range to the heap sort. *)
Definition keys_deep : list Q :=
  [ 0; 46; 2; 44; 4; 43; 6; 42; 8; 41; 10; 40; 12; 39; 14; 38; 16; 37; 18; 36;
    20; 23; 47; 1; 3; 5; 7; 9; 11; 13; 15; 17; 19; 21; 35; 34; 33; 32; 31; 30;
    29; 28; 27; 26; 25; 24; 45; 22 ].

(** Eighteen customers, numbered in dataset order, with one probability. *)
Definition ties18 : DataFrame :=
  map (fun i => customer (Z.of_nat i) 0 1 0.9 "UK") (seq 0 18).

(** ** Notions for the further properties *)

(** The rows of one country. *)
Definition group_rows (c : string) (D : DataFrame) : DataFrame :=
  filter (fun r => String.eqb (PrimaryCountry_Grouped_Original r) c) D.

(** The sum of a list of numbers. *)
Definition Qsum (l : list Q) : Q := fold_right Qplus 0 l.

(** The rates of a call are numbers: a float metric is not NaN, and no bar
    of a chart is.  Nothing is asked of the other calls; a table shows the
    cells of the dataset as they are, NaN included. *)
Definition rates_are_numbers (c : st_call) : Prop :=
  match c with
  | st_metric _ (CFloat f) => f <> NaN
  | st_plotly_chart _ data => Forall (fun e => snd e <> NaN) data
  | _ => True
  end.

(** * Properties *)

(** Comparison of two rational constants. *)
Ltac q_compare := unfold Qle, Qlt; simpl; lia.

(** ** Rounding to binary64 *)

Lemma pow2_pos (e : Z) : 0 < B64.pow2 e.
Proof. apply Qpower_0_lt. reflexivity. Qed.

Lemma pow2_add (a b : Z) : B64.pow2 (a + b) == B64.pow2 a * B64.pow2 b.
Proof. apply Qpower_plus. discriminate. Qed.

Lemma pow2_le (a b : Z) : (a <= b)%Z -> B64.pow2 a <= B64.pow2 b.
Proof. intro H. apply Qpower_le_compat_l; [exact H | discriminate]. Qed.

Lemma pow2_lt (a b : Z) : (a < b)%Z -> B64.pow2 a < B64.pow2 b.
Proof. intro H. apply Qpower_lt_compat_l; [exact H | reflexivity]. Qed.

Lemma pow2_lt_inv (a b : Z) : B64.pow2 a < B64.pow2 b -> (a < b)%Z.
Proof. intro H. apply (Qpower_lt_compat_l_inv 2); [exact H | reflexivity]. Qed.

Lemma pow2_Z (k : Z) : (0 <= k)%Z -> B64.pow2 k == inject_Z (2 ^ k).
Proof. intro H. symmetry. apply (Zpower_Qpower 2 k H). Qed.

Lemma rhe_bounds (x : Q) :
  (Qfloor x <= B64.round_half_even x <= Qfloor x + 1)%Z.
Proof.
  unfold B64.round_half_even.
  destruct (x - inject_Z (Qfloor x) ?= 1 # 2); [destruct (Z.even (Qfloor x))| |]; lia.
Qed.

Lemma rhe_mono (a b : Q) : a <= b -> (B64.round_half_even a <= B64.round_half_even b)%Z.
Proof.
  intro Hab. pose proof (Qfloor_resp_le a b Hab) as Hf.
  destruct (Z.eq_dec (Qfloor a) (Qfloor b)) as [E|E].
  - unfold B64.round_half_even. rewrite <- E.
    assert (Hr : a - inject_Z (Qfloor a) <= b - inject_Z (Qfloor a)) by lra.
    destruct (Qcompare_spec (a - inject_Z (Qfloor a)) (1 # 2)) as [Ha|Ha|Ha];
    destruct (Qcompare_spec (b - inject_Z (Qfloor a)) (1 # 2)) as [Hb|Hb|Hb];
      try destruct (Z.even (Qfloor a)); try lia; exfalso; lra.
  - pose proof (rhe_bounds a). pose proof (rhe_bounds b). lia.
Qed.

Lemma rhe_Z (z : Z) : B64.round_half_even (inject_Z z) = z.
Proof.
  unfold B64.round_half_even. rewrite Qfloor_Z.
  destruct (Qcompare_spec (inject_Z z - inject_Z z) (1 # 2)) as [H|H|H];
    [exfalso; lra | reflexivity | exfalso; lra].
Qed.

Lemma rhe_err (x : Q) : Qabs (inject_Z (B64.round_half_even x) - x) <= 1 # 2.
Proof.
  pose proof (Qfloor_le x) as Hlo. pose proof (Qlt_floor x) as Hhi.
  rewrite inject_Z_plus in Hhi. change (inject_Z 1) with 1 in Hhi.
  apply Qabs_Qle_condition. unfold B64.round_half_even.
  destruct (Qcompare_spec (x - inject_Z (Qfloor x)) (1 # 2)) as [H|H|H];
    [destruct (Z.even (Qfloor x))| |]; rewrite ?inject_Z_plus;
    change (inject_Z 1) with 1 in *; split; lra.
Qed.

Lemma ilog2_spec (a : Q) :
  0 < a -> B64.pow2 (B64.ilog2 a) <= a /\ a < B64.pow2 (B64.ilog2 a + 1).
Proof.
  destruct a as [n d]. intro Ha.
  assert (Hn : (0 < n)%Z) by (unfold Qlt in Ha; simpl in Ha; lia).
  unfold B64.ilog2. simpl Qnum. simpl Qden.
  set (ln := Z.log2 n). set (ld := Z.log2 (Z.pos d)).
  assert (Hln : (0 <= ln)%Z) by apply Z.log2_nonneg.
  assert (Hld : (0 <= ld)%Z) by apply Z.log2_nonneg.
  destruct (Z.log2_spec n Hn) as [Hn1 Hn2]. fold ln in Hn1, Hn2.
  destruct (Z.log2_spec (Z.pos d) (Pos2Z.is_pos d)) as [Hd1 Hd2]. fold ld in Hd1, Hd2.
  assert (H1 : B64.pow2 ln <= inject_Z n) by (rewrite pow2_Z by lia; rewrite <- Zle_Qle; exact Hn1).
  assert (H2 : inject_Z n < B64.pow2 (ln + 1))
    by (rewrite pow2_Z by lia; rewrite <- Zlt_Qlt; exact Hn2).
  assert (H3 : B64.pow2 ld <= inject_Z (Z.pos d))
    by (rewrite pow2_Z by lia; rewrite <- Zle_Qle; exact Hd1).
  assert (H4 : inject_Z (Z.pos d) < B64.pow2 (ld + 1))
    by (rewrite pow2_Z by lia; rewrite <- Zlt_Qlt; exact Hd2).
  assert (Hd : 0 < inject_Z (Z.pos d)) by reflexivity.
  assert (Hhi : n # d < B64.pow2 (ln - ld + 1)).
  { rewrite Qmake_Qdiv. apply Qlt_shift_div_r; [exact Hd|].
    eapply Qlt_le_trans; [exact H2|].
    replace (ln + 1)%Z with ((ln - ld + 1) + ld)%Z by lia.
    rewrite pow2_add. apply Qmult_le_l; [apply pow2_pos | exact H3]. }
  assert (Hlo : B64.pow2 (ln - ld - 1) <= n # d).
  { rewrite Qmake_Qdiv. apply Qle_shift_div_l; [exact Hd|].
    eapply Qle_trans; [|exact H1].
    replace ln with ((ln - ld - 1) + (ld + 1))%Z at 2 by lia.
    rewrite pow2_add. apply Qmult_le_l; [apply pow2_pos | apply Qlt_le_weak; exact H4]. }
  destruct (Qle_bool (B64.pow2 (ln - ld)) (n # d)) eqn:E.
  - apply Qle_bool_iff in E. split; assumption.
  - split; [exact Hlo|].
    replace (ln - ld - 1 + 1)%Z with (ln - ld)%Z by lia.
    apply Qnot_le_lt. intro H. apply Qle_bool_iff in H. congruence.
Qed.

Lemma ilog2_unique (a : Q) (k : Z) :
  B64.pow2 k <= a -> a < B64.pow2 (k + 1) -> B64.ilog2 a = k.
Proof.
  intros H1 H2.
  assert (Ha : 0 < a) by (eapply Qlt_le_trans; [apply (pow2_pos k) | exact H1]).
  destruct (ilog2_spec a Ha) as [S1 S2].
  assert (B64.ilog2 a < k + 1)%Z
    by (apply pow2_lt_inv; eapply Qle_lt_trans; eassumption).
  assert (k < B64.ilog2 a + 1)%Z
    by (apply pow2_lt_inv; eapply Qle_lt_trans; eassumption).
  lia.
Qed.

Lemma ilog2_mono (a b : Q) : 0 < a -> a <= b -> (B64.ilog2 a <= B64.ilog2 b)%Z.
Proof.
  intros Ha Hab.
  assert (Hb : 0 < b) by (eapply Qlt_le_trans; eassumption).
  destruct (ilog2_spec a Ha) as [A1 _]. destruct (ilog2_spec b Hb) as [_ B2].
  assert (B64.ilog2 a < B64.ilog2 b + 1)%Z; [|lia].
  apply pow2_lt_inv. eapply Qle_lt_trans; [exact A1|].
  eapply Qle_lt_trans; eassumption.
Qed.

Lemma ulp_exp_mono (a b : Q) : 0 < a -> a <= b -> (B64.ulp_exp a <= B64.ulp_exp b)%Z.
Proof.
  intros Ha Hab. pose proof (ilog2_mono a b Ha Hab). unfold B64.ulp_exp. lia.
Qed.

(** The scaled significand is below 2^53, and at least 2^52 for a normal number. *)
Lemma scaled_lt (a : Q) : 0 < a -> a / B64.pow2 (B64.ulp_exp a) < inject_Z (2 ^ 53).
Proof.
  intro Ha. destruct (ilog2_spec a Ha) as [_ H2].
  apply Qlt_shift_div_r; [apply pow2_pos|].
  eapply Qlt_le_trans; [exact H2|].
  rewrite <- (pow2_Z 53) by lia. rewrite <- pow2_add.
  apply pow2_le. unfold B64.ulp_exp. lia.
Qed.

Lemma scaled_ge (a : Q) :
  0 < a -> (B64.emin <= B64.ilog2 a - 52)%Z -> inject_Z (2 ^ 52) <= a / B64.pow2 (B64.ulp_exp a).
Proof.
  intros Ha He. destruct (ilog2_spec a Ha) as [H1 _].
  apply Qle_shift_div_l; [apply pow2_pos|].
  eapply Qle_trans; [|exact H1].
  rewrite <- (pow2_Z 52) by lia. rewrite <- pow2_add.
  apply pow2_le. unfold B64.ulp_exp. lia.
Qed.

Lemma round_pos_nonneg (a : Q) : 0 < a -> 0 <= B64.round_pos a.
Proof.
  intro Ha. unfold B64.round_pos.
  apply Qmult_le_0_compat; [|apply Qlt_le_weak, pow2_pos].
  replace 0 with (inject_Z 0) by reflexivity. rewrite <- Zle_Qle.
  rewrite <- (rhe_Z 0). apply rhe_mono.
  apply Qle_shift_div_l; [apply pow2_pos|]. rewrite Qmult_0_l.
  apply Qlt_le_weak. exact Ha.
Qed.

Lemma round_pos_mono (a b : Q) : 0 < a -> a <= b -> B64.round_pos a <= B64.round_pos b.
Proof.
  intros Ha Hab.
  assert (Hb : 0 < b) by (eapply Qlt_le_trans; eassumption).
  pose proof (ulp_exp_mono a b Ha Hab) as He.
  unfold B64.round_pos.
  destruct (Z.eq_dec (B64.ulp_exp a) (B64.ulp_exp b)) as [E|E].
  - rewrite <- E. apply Qmult_le_compat_r; [|apply Qlt_le_weak, pow2_pos].
    rewrite <- Zle_Qle. apply rhe_mono.
    apply Qmult_le_compat_r; [exact Hab|].
    apply Qlt_le_weak, Qinv_lt_0_compat, pow2_pos.
  - assert (Hlt : (B64.ulp_exp a + 1 <= B64.ulp_exp b)%Z) by lia.
    assert (Hnormal : (B64.emin <= B64.ilog2 b - 52)%Z)
      by (unfold B64.ulp_exp in *; lia).
    apply Qle_trans with (inject_Z (2 ^ 53) * B64.pow2 (B64.ulp_exp a)).
    + apply Qmult_le_compat_r; [|apply Qlt_le_weak, pow2_pos].
      rewrite <- Zle_Qle. rewrite <- (rhe_Z (2 ^ 53)). apply rhe_mono.
      apply Qlt_le_weak, scaled_lt, Ha.
    + apply Qle_trans with (inject_Z (2 ^ 52) * B64.pow2 (B64.ulp_exp b)).
      * rewrite <- (pow2_Z 53), <- (pow2_Z 52) by lia. rewrite <- !pow2_add.
        apply pow2_le. lia.
      * apply Qmult_le_compat_r; [|apply Qlt_le_weak, pow2_pos].
        rewrite <- Zle_Qle. rewrite <- (rhe_Z (2 ^ 52)). apply rhe_mono.
        apply scaled_ge; assumption.
Qed.

Lemma round_pos_eq (a : Q) : 0 < a -> B64.round a == B64.round_pos a.
Proof.
  intro Ha. unfold B64.round. rewrite Qred_correct.
  destruct (Qcompare_spec a 0) as [H|H|H]; [exfalso; lra | exfalso; lra | reflexivity].
Qed.

Lemma round_neg_eq (a : Q) : a < 0 -> B64.round a == - B64.round_pos (- a).
Proof.
  intro Ha. unfold B64.round. rewrite Qred_correct.
  destruct (Qcompare_spec a 0) as [H|H|H]; [exfalso; lra | reflexivity | exfalso; lra].
Qed.

Lemma round_zero_eq (a : Q) : a == 0 -> B64.round a == 0.
Proof.
  intro Ha. unfold B64.round. rewrite Qred_correct.
  destruct (Qcompare_spec a 0) as [H|H|H]; [reflexivity | exfalso; lra | exfalso; lra].
Qed.

Lemma round_mono (a b : Q) : a <= b -> B64.round a <= B64.round b.
Proof.
  intro Hab.
  destruct (Qcompare_spec a 0) as [Ha|Ha|Ha];
  destruct (Qcompare_spec b 0) as [Hb|Hb|Hb]; try (exfalso; lra).
  - rewrite (round_zero_eq a Ha), (round_zero_eq b Hb). lra.
  - rewrite (round_zero_eq a Ha), (round_pos_eq b Hb). apply round_pos_nonneg, Hb.
  - rewrite (round_neg_eq a Ha), (round_zero_eq b Hb).
    assert (0 <= B64.round_pos (- a)) by (apply round_pos_nonneg; lra). lra.
  - rewrite (round_neg_eq a Ha), (round_neg_eq b Hb).
    assert (B64.round_pos (- b) <= B64.round_pos (- a)) by (apply round_pos_mono; lra). lra.
  - rewrite (round_neg_eq a Ha), (round_pos_eq b Hb).
    assert (0 <= B64.round_pos (- a)) by (apply round_pos_nonneg; lra).
    assert (0 <= B64.round_pos b) by (apply round_pos_nonneg; lra). lra.
  - rewrite (round_pos_eq a Ha), (round_pos_eq b Hb). apply round_pos_mono; assumption.
Qed.

Lemma round_canonical (a b : Q) : B64.round a == B64.round b -> B64.round a = B64.round b.
Proof.
  unfold B64.round. intro H. apply Qred_complete.
  rewrite !Qred_correct in H. exact H.
Qed.

(** A normal number is rounded with a relative error of at most 2^-53. *)
Lemma round_error (a : Q) :
  B64.pow2 (-1022) <= a -> Qabs (B64.round a - a) <= a * B64.pow2 (-53).
Proof.
  intro Hn.
  assert (Ha : 0 < a) by (eapply Qlt_le_trans; [apply (pow2_pos (-1022)) | exact Hn]).
  rewrite (round_pos_eq a Ha).
  destruct (ilog2_spec a Ha) as [H1 H2].
  assert (Hk : (-1022 <= B64.ilog2 a)%Z).
  { assert (-1022 < B64.ilog2 a + 1)%Z; [|lia].
    apply pow2_lt_inv. eapply Qle_lt_trans; eassumption. }
  assert (He : B64.ulp_exp a = (B64.ilog2 a - 52)%Z) by (unfold B64.ulp_exp, B64.emin; lia).
  unfold B64.round_pos. rewrite He. set (e := (B64.ilog2 a - 52)%Z).
  pose proof (pow2_pos e) as Hp.
  pose proof (rhe_err (a / B64.pow2 e)) as Herr.
  apply Qabs_Qle_condition in Herr. destruct Herr as [E1 E2].
  assert (Hx : a / B64.pow2 e * B64.pow2 e == a)
    by (unfold Qdiv; rewrite <- Qmult_assoc, (Qmult_comm (/ B64.pow2 e)), Qmult_inv_r;
        [ring | intro H0; rewrite H0 in Hp; discriminate Hp]).
  assert (Hhalf : B64.pow2 e * (1 # 2) <= a * B64.pow2 (-53)).
  { apply Qle_trans with (B64.pow2 (B64.ilog2 a) * B64.pow2 (-53)).
    - rewrite <- pow2_add.
      replace (B64.ilog2 a + -53)%Z with (e + -1)%Z by (unfold e; lia).
      rewrite pow2_add. apply Qmult_le_l; [exact Hp|]. discriminate.
    - apply Qmult_le_compat_r; [exact H1 | apply Qlt_le_weak, pow2_pos]. }
  set (m := inject_Z (B64.round_half_even (a / B64.pow2 e))) in *.
  apply Qabs_Qle_condition.
  assert (B1 : (m - a / B64.pow2 e) * B64.pow2 e <= (1 # 2) * B64.pow2 e)
    by (apply Qmult_le_compat_r; [exact E2 | lra]).
  assert (B2 : - (1 # 2) * B64.pow2 e <= (m - a / B64.pow2 e) * B64.pow2 e)
    by (apply Qmult_le_compat_r; [exact E1 | lra]).
  assert (Hd : (m - a / B64.pow2 e) * B64.pow2 e == m * B64.pow2 e - a)
    by (rewrite <- Hx at 2; ring).
  rewrite Hd in B1, B2. split; lra.
Qed.

Lemma round_0 : B64.round 0 = 0.
Proof. reflexivity. Qed.
Lemma round_1 : B64.round 1 = 1.
Proof. vm_compute. reflexivity. Qed.
Lemma round_100 : B64.round 100 = 100.
Proof. vm_compute. reflexivity. Qed.
Lemma round_pow2_m53 : B64.round (B64.pow2 (-53)) == B64.pow2 (-53).
Proof. vm_compute. reflexivity. Qed.

Lemma ratio_bounds (s n : Z) :
  (0 <= s <= n)%Z -> (0 < n)%Z -> 0 <= inject_Z s / inject_Z n <= 1.
Proof.
  intros Hs Hn.
  assert (Hq : 0 < inject_Z n) by (replace 0 with (inject_Z 0) by reflexivity; rewrite <- Zlt_Qlt; exact Hn).
  split.
  - apply Qle_shift_div_l; [exact Hq|]. rewrite Qmult_0_l.
    replace 0 with (inject_Z 0) by reflexivity. rewrite <- Zle_Qle. lia.
  - apply Qle_shift_div_r; [exact Hq|]. rewrite Qmult_1_l. rewrite <- Zle_Qle. lia.
Qed.

Lemma percent_bounds (s n : Z) :
  (0 <= s <= n)%Z -> (0 < n)%Z ->
  0 <= B64.round (B64.round (inject_Z s / inject_Z n) * 100) <= 100.
Proof.
  intros Hs Hn. destruct (ratio_bounds s n Hs Hn) as [H0 H1].
  pose proof (round_mono _ _ H0) as R0. pose proof (round_mono _ _ H1) as R1.
  rewrite round_0 in R0. rewrite round_1 in R1.
  set (r := B64.round (inject_Z s / inject_Z n)) in *.
  assert (A0 : 0 <= r * 100) by lra. assert (A1 : r * 100 <= 100) by lra.
  pose proof (round_mono _ _ A0) as B0. pose proof (round_mono _ _ A1) as B1.
  rewrite round_0 in B0. rewrite round_100 in B1. split; assumption.
Qed.

Lemma percent_error (s n : Z) :
  (0 <= s <= n)%Z -> (0 < n)%Z -> (n < 2 ^ 53)%Z ->
  Qabs (B64.round (B64.round (inject_Z s / inject_Z n) * 100) - 100 * (inject_Z s / inject_Z n))
  <= 100 * (inject_Z s / inject_Z n) * B64.pow2 (-51).
Proof.
  intros Hs Hn Hlt.
  assert (Hq : 0 < inject_Z n)
    by (replace 0 with (inject_Z 0) by reflexivity; rewrite <- Zlt_Qlt; exact Hn).
  assert (E53 : B64.pow2 (-53) == 1 # 9007199254740992) by reflexivity.
  assert (E51 : B64.pow2 (-51) == 1 # 2251799813685248) by reflexivity.
  destruct (Z.eq_dec s 0) as [Hz|Hz].
  - subst s.
    assert (Hx : inject_Z 0 / inject_Z n == 0) by (unfold Qdiv; change (inject_Z 0) with 0; ring).
    assert (R : B64.round (B64.round (inject_Z 0 / inject_Z n) * 100) == 0).
    { apply round_zero_eq. rewrite (round_zero_eq _ Hx). ring. }
    rewrite R, Hx. rewrite E51. apply Qabs_Qle_condition. split; lra.
  - set (x := inject_Z s / inject_Z n).
    assert (Hx : B64.pow2 (-53) <= x).
    { apply Qle_shift_div_l; [exact Hq|].
      apply Qle_trans with 1.
      - rewrite E53.
        assert (inject_Z n <= inject_Z (2 ^ 53)) by (rewrite <- Zle_Qle; lia).
        change (inject_Z (2 ^ 53)) with (9007199254740992 # 1) in H. lra.
      - change 1 with (inject_Z 1). rewrite <- Zle_Qle. lia. }
    assert (Hnorm : B64.pow2 (-1022) <= x)
      by (eapply Qle_trans; [apply pow2_le|exact Hx]; lia).
    pose proof (round_error x Hnorm) as H1.
    pose proof (round_mono _ _ Hx) as Hr. rewrite round_pow2_m53 in Hr.
    set (r := B64.round x) in *.
    assert (Hnorm2 : B64.pow2 (-1022) <= r * 100).
    { apply Qle_trans with (B64.pow2 (-53)); [apply pow2_le; lia|]. rewrite E53 in *. lra. }
    pose proof (round_error _ Hnorm2) as H2.
    set (q := B64.round (r * 100)) in *.
    apply Qabs_Qle_condition in H1. apply Qabs_Qle_condition in H2.
    apply Qabs_Qle_condition.
    rewrite E53 in *. rewrite E51. destruct H1, H2. split; lra.
Qed.

(** ** Positional selection *)

Lemma take_nil {A : Type} (idx : list nat) : take (@nil A) idx = [].
Proof.
  induction idx as [|i idx IH]; simpl; auto.
  destruct i; simpl; exact IH.
Qed.

Lemma take_cons {A : Type} (l : list A) (i : nat) (idx : list nat) :
  take l (i :: idx) =
  match nth_error l i with Some x => [x] | None => [] end ++ take l idx.
Proof. reflexivity. Qed.

Lemma take_app {A : Type} (l : list A) (idx idx' : list nat) :
  take l (idx ++ idx') = take l idx ++ take l idx'.
Proof. unfold take. apply flat_map_app. Qed.

Lemma take_rev {A : Type} (l : list A) (idx : list nat) :
  take l (rev idx) = rev (take l idx).
Proof.
  induction idx as [|i idx IH]; simpl; auto.
  rewrite take_app, IH, take_cons, rev_app_distr. simpl.
  destruct (nth_error l i); simpl; rewrite ?app_nil_r; reflexivity.
Qed.

Lemma take_map {A B : Type} (f : A -> B) (l : list A) (idx : list nat) :
  take (map f l) idx = map f (take l idx).
Proof.
  induction idx as [|i idx IH]; simpl; auto.
  rewrite map_app, <- IH, nth_error_map.
  destruct (nth_error l i); reflexivity.
Qed.

Lemma take_seq_from {A : Type} (pre l : list A) :
  take (pre ++ l) (seq (length pre) (length l)) = l.
Proof.
  revert pre. induction l as [|x l IH]; intro pre; simpl; auto.
  rewrite nth_error_app2, Nat.sub_diag by lia. simpl. f_equal.
  specialize (IH (pre ++ [x])).
  rewrite <- app_assoc, length_app in IH. simpl in IH.
  rewrite Nat.add_1_r in IH. exact IH.
Qed.

Lemma take_seq {A : Type} (l : list A) : take l (seq 0 (length l)) = l.
Proof. exact (take_seq_from [] l). Qed.

Lemma take_perm {A : Type} (l : list A) (idx idx' : list nat) :
  Permutation idx idx' -> Permutation (take l idx) (take l idx').
Proof. intro H. unfold take. apply Permutation_flat_map. exact H. Qed.

Lemma nth_error_take {A : Type} (l : list A) (idx : list nat) (j : nat) :
  Forall (fun i => (i < length l)%nat) idx ->
  nth_error (take l idx) j =
  match nth_error idx j with Some i => nth_error l i | None => None end.
Proof.
  intro H. revert j. induction H as [|i idx Hi _ IH]; intro j.
  - simpl. destruct j; reflexivity.
  - rewrite take_cons.
    destruct (nth_error l i) as [x|] eqn:E.
    + destruct j; simpl; auto.
    + apply nth_error_None in E. lia.
Qed.

Lemma take_take {A : Type} (l : list A) (idx a : list nat) :
  Forall (fun i => (i < length l)%nat) idx ->
  take l (take idx a) = take (take l idx) a.
Proof.
  intro H. induction a as [|j a IH]; simpl; auto.
  rewrite take_app, IH, (nth_error_take l idx j H).
  f_equal. destruct (nth_error idx j) as [i|]; simpl; auto.
  rewrite app_nil_r. reflexivity.
Qed.

Lemma seq_lt (n : nat) : Forall (fun i => (i < n)%nat) (seq 0 n).
Proof. apply Forall_forall. intros i Hi. apply in_seq in Hi. lia. Qed.

Lemma take_rev_seq {A : Type} (l : list A) :
  take l (rev (seq 0 (length l))) = rev l.
Proof. rewrite take_rev, take_seq. reflexivity. Qed.

(** ** Sortedness of a reversed list *)

Lemma StronglySorted_snoc {A : Type} (R : A -> A -> Prop) (l : list A) (a : A) :
  StronglySorted R l -> Forall (fun x => R x a) l -> StronglySorted R (l ++ [a]).
Proof.
  induction 1 as [|x l Hs IH Hx]; intro Ha; simpl.
  - constructor; constructor.
  - inversion Ha; subst. constructor.
    + apply IH. assumption.
    + apply Forall_app. split; auto.
Qed.

Lemma StronglySorted_rev {A : Type} (R : A -> A -> Prop) (l : list A) :
  StronglySorted R l -> StronglySorted (fun a b => R b a) (rev l).
Proof.
  induction 1 as [|x l Hs IH Hx]; simpl.
  - constructor.
  - apply StronglySorted_snoc; auto.
    apply Forall_rev. exact Hx.
Qed.

Lemma StronglySorted_map {A B : Type} (R : B -> B -> Prop) (f : A -> B) (l : list A) :
  StronglySorted R (map f l) <-> StronglySorted (fun a b => R (f a) (f b)) l.
Proof.
  induction l as [|x l IH]; simpl.
  - split; constructor.
  - split; intro H; inversion H; subst; constructor;
      try (apply IH; assumption);
      rewrite Forall_map in *; assumption.
Qed.

(** ** nargsort on NaN-free keys *)

Lemma non_nan_from_fin (i : nat) (qs : list Q) :
  non_nan_from i (map Fin qs) = combine (seq i (length qs)) qs.
Proof.
  revert i. induction qs as [|q qs IH]; intro i; simpl; auto.
  rewrite IH. reflexivity.
Qed.

Lemma nan_from_fin (i : nat) (qs : list Q) : nan_from i (map Fin qs) = [].
Proof. revert i. induction qs as [|q qs IH]; intro i; simpl; auto. Qed.

Lemma map_fst_combine_seq {A : Type} (i : nat) (l : list A) :
  map fst (combine (seq i (length l)) l) = seq i (length l).
Proof. revert i. induction l as [|x l IH]; intro i; simpl; auto. rewrite IH. reflexivity. Qed.

Lemma map_snd_combine_seq {A : Type} (i : nat) (l : list A) :
  map snd (combine (seq i (length l)) l) = l.
Proof. revert i. induction l as [|x l IH]; intro i; simpl; auto. rewrite IH. reflexivity. Qed.

Lemma nargsort_desc_fin (argsort : list Q -> list nat) (qs : list Q) :
  nargsort argsort (map Fin qs) false =
  rev (take (rev (seq 0 (length qs))) (argsort (rev qs))).
Proof.
  unfold nargsort.
  rewrite non_nan_from_fin, nan_from_fin, map_fst_combine_seq, map_snd_combine_seq.
  apply app_nil_r.
Qed.

Section Contract.

Variable argsort : list Q -> list nat.
Hypothesis contract : argsort_contract argsort.

Lemma nargsort_desc_perm (qs : list Q) :
  Permutation (seq 0 (length qs)) (nargsort argsort (map Fin qs) false).
Proof.
  rewrite nargsort_desc_fin.
  set (idx := rev (seq 0 (length qs))).
  assert (Hlen : length idx = length qs)
    by (unfold idx; rewrite length_rev, length_seq; reflexivity).
  pose proof (argsort_perm _ contract (rev qs)) as Hp.
  rewrite length_rev, <- Hlen in Hp.
  apply (take_perm idx) in Hp.
  rewrite take_seq in Hp.
  apply Permutation_trans with idx.
  - apply Permutation_rev.
  - apply Permutation_trans with (take idx (argsort (rev qs))).
    + exact Hp.
    + apply Permutation_rev.
Qed.

Lemma nargsort_desc_keys (qs : list Q) :
  take qs (nargsort argsort (map Fin qs) false) =
  rev (take (rev qs) (argsort (rev qs))).
Proof.
  rewrite nargsort_desc_fin, take_rev, take_take.
  - rewrite take_rev_seq. reflexivity.
  - apply Forall_rev, seq_lt.
Qed.

Lemma nargsort_desc_sorted (qs : list Q) :
  StronglySorted (fun a b => b <= a)
    (take qs (nargsort argsort (map Fin qs) false)).
Proof.
  rewrite nargsort_desc_keys.
  apply StronglySorted_rev. apply (argsort_sorted _ contract).
Qed.

End Contract.

(** ** sort_values on a NaN-free column *)

Lemma map_fin_value {A : Type} (by_ : A -> float64) (df : list A) :
  Forall (fun x => by_ x <> NaN) df ->
  map by_ df = map Fin (map (fun x => fin_value (by_ x)) df).
Proof.
  induction 1 as [|x df Hx _ IH]; simpl; auto.
  rewrite IH. f_equal. destruct (by_ x); [reflexivity | contradiction].
Qed.

Section SortValues.

Variable argsort : list Q -> list nat.
Hypothesis contract : argsort_contract argsort.

Context {A : Type}.
Variable by_ : A -> float64.

Lemma sort_values_desc_perm (df : list A) :
  Forall (fun x => by_ x <> NaN) df ->
  Permutation df (sort_values argsort by_ false df).
Proof.
  intro H. unfold sort_values. rewrite (map_fin_value by_ df H).
  pose proof (nargsort_desc_perm argsort contract
                (map (fun x => fin_value (by_ x)) df)) as Hp.
  rewrite length_map in Hp.
  apply (take_perm df) in Hp. rewrite take_seq in Hp. exact Hp.
Qed.

Lemma sort_values_desc_sorted (df : list A) :
  Forall (fun x => by_ x <> NaN) df ->
  StronglySorted (fun a b => fin_value (by_ b) <= fin_value (by_ a))
    (sort_values argsort by_ false df).
Proof.
  intro H.
  apply (StronglySorted_map (fun a b => b <= a) (fun x => fin_value (by_ x))).
  unfold sort_values. rewrite <- take_map, (map_fin_value by_ df H).
  apply nargsort_desc_sorted. exact contract.
Qed.


End SortValues.

(** ** The insertion kernels meet the contract *)

Lemma take_in_range (v : list Q) (idx : list nat) :
  Forall (fun i => (i < length v)%nat) idx -> take v idx = map (key v) idx.
Proof.
  induction 1 as [|i idx Hi _ IH]; simpl; auto.
  rewrite IH. unfold key.
  rewrite (nth_error_nth' v 0 Hi). reflexivity.
Qed.

Section Insertion.

Variable before : Q -> Q -> bool.
Hypothesis before_true : forall a b, before a b = true -> a <= b.
Hypothesis before_false : forall a b, before a b = false -> b <= a.

Lemma insert_pos_perm (v : list Q) (i : nat) (idx : list nat) :
  Permutation (i :: idx) (insert_pos before v i idx).
Proof.
  induction idx as [|j idx IH]; simpl; auto.
  destruct (before (key v i) (key v j)); auto.
  apply Permutation_trans with (j :: i :: idx); [apply perm_swap | auto].
Qed.

Lemma insert_pos_sorted (v : list Q) (i : nat) (idx : list nat) :
  StronglySorted (fun a b => key v a <= key v b) idx ->
  StronglySorted (fun a b => key v a <= key v b) (insert_pos before v i idx).
Proof.
  induction 1 as [|j idx Hs IH Hj]; simpl.
  - constructor; constructor.
  - destruct (before (key v i) (key v j)) eqn:E.
    + apply before_true in E. constructor.
      * constructor; assumption.
      * constructor; auto.
        eapply Forall_impl; [|exact Hj]. simpl. intros a Ha.
        eapply Qle_trans; eassumption.
    + apply before_false in E. constructor; auto.
      apply (Permutation_Forall (insert_pos_perm v i idx)).
      constructor; assumption.
Qed.

Lemma argsort_by_contract : argsort_contract (argsort_by before).
Proof.
  assert (Hperm : forall v n,
             Permutation (seq 0 n) (fold_right (insert_pos before v) [] (seq 0 n))).
  { intros v n. induction (seq 0 n) as [|i l IH]; simpl; auto.
    apply Permutation_trans with (i :: fold_right (insert_pos before v) [] l); auto.
    apply insert_pos_perm. }
  split; intro ks; unfold argsort_by.
  - apply Hperm.
  - rewrite take_in_range.
    + apply StronglySorted_map.
      induction (seq 0 (length ks)) as [|i l IH]; simpl.
      * constructor.
      * apply insert_pos_sorted, IH.
    + apply (Permutation_Forall (Hperm ks (length ks))), seq_lt.
Qed.

End Insertion.

Lemma argsort_insertion_contract : argsort_contract argsort_insertion.
Proof.
  apply argsort_by_contract.
  - intros a b H. apply Qle_bool_iff. exact H.
  - intros a b H. apply Qlt_le_weak, Qnot_le_lt. intro Hle.
    apply Qle_bool_iff in Hle. congruence.
Qed.

Lemma argsort_insertion_late_contract : argsort_contract argsort_insertion_late.
Proof.
  apply argsort_by_contract.
  - intros a b H. apply negb_true_iff in H.
    apply Qlt_le_weak, Qnot_le_lt. intro Hle.
    apply Qle_bool_iff in Hle. congruence.
  - intros a b H. apply negb_false_iff in H. apply Qle_bool_iff. exact H.
Qed.

(** ** NumPy's kernel on samples

    The introsort returns a sorting permutation on the probabilities of
    Scenario B and on [keys_deep]; up to 16 equal keys stay in place, which
    is the range of its insertion sort, and 17 do not. *)
Example npy_argsort_samples :
  npy_argsort [0.9; 0.2; 1.0; 0.8; 0.7; 0.3; 0.4; 0.5] = [1; 5; 6; 7; 4; 3; 0; 2]%nat
  /\ take keys_deep (npy_argsort keys_deep) = map (fun i => inject_Z (Z.of_nat i)) (seq 0 48)
  /\ Permutation (seq 0 48) (npy_argsort keys_deep)
  /\ npy_argsort (repeat 0.9 16) = seq 0 16
  /\ npy_argsort (repeat 0.9 17) =
     [0; 14; 13; 12; 11; 10; 9; 15; 8; 6; 5; 4; 3; 2; 1; 7; 16]%nat.
Proof.
  split; [vm_compute; reflexivity|].
  split; [vm_compute; reflexivity|].
  split; [|split; vm_compute; reflexivity].
  apply NoDup_Permutation_bis.
  - apply seq_NoDup.
  - rewrite length_seq. vm_compute. lia.
  - intros i Hi. apply in_seq in Hi.
    assert (Hb : existsb (Nat.eqb i) (npy_argsort keys_deep) = true).
    { do 48 (destruct i as [|i]; [vm_compute; reflexivity|]). lia. }
    apply existsb_exists in Hb. destruct Hb as [j [Hj E]].
    apply Nat.eqb_eq in E. subst j. exact Hj.
Qed.

(** ** The threshold filter *)

Lemma float_ge_true (x : float64) (t : Q) :
  float_ge x t = true <-> exists q, x = Fin q /\ t <= q.
Proof.
  destruct x as [q|]; simpl.
  - rewrite Qle_bool_iff. split.
    + intro H. exists q. auto.
    + intros [q' [E H]]. inversion E; subst. exact H.
  - split; [discriminate | intros [q [E _]]; discriminate].
Qed.

Lemma filter_ge_not_nan (df : DataFrame) (t : Q) :
  Forall (fun r => churn_probability r <> NaN)
    (filter (fun r => float_ge (churn_probability r) t) df).
Proof.
  apply Forall_forall. intros r Hr. apply filter_In in Hr. destruct Hr as [_ Hr].
  destruct (churn_probability r); [discriminate | discriminate].
Qed.

Lemma filter_id {A : Type} (f : A -> bool) (l : list A) :
  forallb f l = true -> filter f l = l.
Proof.
  induction l as [|x l IH]; simpl; auto.
  intro H. apply andb_true_iff in H. destruct H as [Hx Hl].
  rewrite Hx, IH; auto.
Qed.

Lemma filter_none {A : Type} (f : A -> bool) (l : list A) :
  forallb (fun x => negb (f x)) l = true -> filter f l = [].
Proof.
  induction l as [|x l IH]; simpl; auto.
  intro H. apply andb_true_iff in H. destruct H as [Hx Hl].
  apply negb_true_iff in Hx. rewrite Hx. auto.
Qed.

Lemma wf_row_prob (r : Row) :
  wf_row r = true -> exists q, churn_probability r = Fin q /\ 0 <= q /\ q <= 1.
Proof.
  unfold wf_row. intro H. apply andb_true_iff in H. destruct H as [_ H].
  destruct (churn_probability r) as [q|]; simpl in H; [|discriminate].
  apply andb_true_iff in H. destruct H as [H0 H1].
  apply Qle_bool_iff in H0, H1. exists q. auto.
Qed.

Lemma wf_frame_In (df : DataFrame) (r : Row) :
  wf_frame df = true -> In r df -> wf_row r = true.
Proof. unfold wf_frame. rewrite forallb_forall. auto. Qed.

Lemma at_risk_perm (argsort : list Q -> list nat) (df : DataFrame) (t : Q) :
  argsort_contract argsort ->
  Permutation (filter (fun r => float_ge (churn_probability r) t) df)
              (at_risk_customers_filtered argsort df t).
Proof.
  intro contract. unfold at_risk_customers_filtered.
  apply sort_values_desc_perm; [exact contract | apply filter_ge_not_nan].
Qed.

Lemma at_risk_In (argsort : list Q -> list nat) (df : DataFrame) (t : Q) (r : Row) :
  argsort_contract argsort ->
  In r (at_risk_customers_filtered argsort df t) <->
  In r df /\ exists q, churn_probability r = Fin q /\ t <= q.
Proof.
  intro contract. rewrite <- float_ge_true.
  rewrite <- (filter_In (fun r => float_ge (churn_probability r) t)).
  pose proof (at_risk_perm argsort df t contract) as Hp. split; intro H.
  - apply Permutation_sym in Hp. exact (Permutation_in r Hp H).
  - exact (Permutation_in r Hp H).
Qed.

Lemma filter_ge_zero (df : DataFrame) (t : Q) :
  wf_frame df = true -> t <= 0 ->
  filter (fun r => float_ge (churn_probability r) t) df = df.
Proof.
  intros Hwf Ht. apply filter_id. apply forallb_forall. intros r Hr.
  destruct (wf_row_prob r (wf_frame_In df r Hwf Hr)) as [q [E [H0 _]]].
  rewrite E. simpl. apply Qle_bool_iff. eapply Qle_trans; eassumption.
Qed.

Lemma filter_ge_above_one (df : DataFrame) (t : Q) :
  wf_frame df = true -> 1 < t ->
  filter (fun r => float_ge (churn_probability r) t) df = [].
Proof.
  intros Hwf Ht. apply filter_none. apply forallb_forall. intros r Hr.
  destruct (wf_row_prob r (wf_frame_In df r Hwf Hr)) as [q [E [_ H1]]].
  rewrite E. simpl. apply negb_true_iff.
  destruct (Qle_bool t q) eqn:Hb; auto.
  apply Qle_bool_iff in Hb. exfalso.
  apply (Qlt_irrefl 1). eapply Qlt_le_trans; [exact Ht|].
  eapply Qle_trans; eassumption.
Qed.

(** C1.  The at-risk list holds exactly the rows of the dataset whose
    churn_probability is at least the threshold, the bound included: the
    list is a rearrangement of the rows that pass [>=], at any threshold.
    On a dataset whose probabilities lie in [0, 1], threshold 0.0 keeps
    every row and threshold 1.0 keeps exactly the rows with probability
    equal to 1.0. *)
Theorem at_risk_keeps_rows_at_or_above_threshold
    (argsort : list Q -> list nat) (contract : argsort_contract argsort)
    (D : DataFrame) (t : Q) :
  Permutation (filter (fun r => float_ge (churn_probability r) t) D)
              (at_risk_customers_filtered argsort D t)
  /\ (forall r, In r (at_risk_customers_filtered argsort D t) <->
                In r D /\ exists q, churn_probability r = Fin q /\ t <= q)
  /\ (wf_frame D = true ->
      Permutation D (at_risk_customers_filtered argsort D 0.0)
      /\ length (at_risk_customers_filtered argsort D 0.0) = length D)
  /\ (wf_frame D = true ->
      forall r, In r (at_risk_customers_filtered argsort D 1.0) <->
                In r D /\ exists q, churn_probability r = Fin q /\ q == 1.0).
Proof.
  split; [apply at_risk_perm; exact contract|].
  split; [intro r; apply at_risk_In; exact contract|].
  split.
  - intro Hwf.
    pose proof (at_risk_perm argsort D 0.0 contract) as Hp.
    rewrite (filter_ge_zero D 0.0 Hwf) in Hp by (q_compare).
    split; [exact Hp|]. symmetry. apply Permutation_length. exact Hp.
  - intros Hwf r. rewrite (at_risk_In argsort D 1.0 r contract).
    split; intros [Hin [q [E Hq]]]; (split; [exact Hin|]); exists q; (split; [exact E|]).
    + destruct (wf_row_prob r (wf_frame_In D r Hwf Hin)) as [q' [E' [_ H1]]].
      rewrite E in E'. inversion E'; subst q'.
      apply Qle_antisym; [|exact Hq].
      eapply Qle_trans; [exact H1|]. q_compare.
    + rewrite Hq. apply Qle_refl.
Qed.

(** Scenario B has probabilities in [0, 1]: threshold 0.0 keeps its eight rows. *)
Lemma at_risk_keeps_rows_at_or_above_threshold_witness :
  wf_frame scenario_B = true
  /\ length (at_risk_customers_filtered argsort_insertion scenario_B 0.0) = 8%nat.
Proof.
  split; [reflexivity|].
  destruct (at_risk_keeps_rows_at_or_above_threshold
              argsort_insertion argsort_insertion_contract scenario_B 0.5)
    as [_ [_ [H0 _]]].
  destruct (H0 eq_refl) as [_ Hlen]. exact Hlen.
Defined.

(** ** The at-risk section *)

Lemma getitem_display_cols (df : DataFrame) :
  getitem display_cols df = ret (map displayed_row df).
Proof.
  unfold getitem.
  assert (H : getitem_rows display_cols df = Some (map displayed_row df)).
  { induction df as [|r df IH]; simpl; auto.
    simpl in IH. rewrite IH. reflexivity. }
  rewrite H. reflexivity.
Qed.

Lemma at_risk_section_log (argsort : list Q -> list nat) (df : DataFrame) (t : Q) :
  at_risk_section argsort df t =
  ( [ st_info_showing (length (at_risk_customers_filtered argsort df t)) t;
      if empty (at_risk_customers_filtered argsort df t)
      then st_write "No customers identified as 'at-risk' with the current threshold."
      else st_dataframe
             (firstn 500 (map displayed_row (at_risk_customers_filtered argsort df t))) ],
    Returned tt ).
Proof.
  unfold at_risk_section. rewrite getitem_display_cols.
  destruct (at_risk_customers_filtered argsort df t); reflexivity.
Qed.

Lemma at_risk_length (argsort : list Q -> list nat) (df : DataFrame) (t : Q) :
  argsort_contract argsort ->
  length (at_risk_customers_filtered argsort df t) =
  length (filter (fun r => float_ge (churn_probability r) t) df).
Proof.
  intro contract. symmetry. apply Permutation_length, at_risk_perm, contract.
Qed.

(** C2.  The count in "Showing N customers" is the number of rows that pass
    the filter, taken before any truncation, and the table that is shown has
    the first 500 of them at most.  With 600 rows at or above 0.5 the count
    is 600 and the table has 500 rows. *)
Theorem reported_count_is_full_and_table_is_capped
    (argsort : list Q -> list nat) (contract : argsort_contract argsort)
    (D : DataFrame) (t : Q) :
  (exists rest,
      at_risk_section argsort D t =
      ( st_info_showing
          (length (filter (fun r => float_ge (churn_probability r) t) D)) t :: rest,
        Returned tt )
      /\ forall table, In (st_dataframe table) rest ->
           (length table <= 500)%nat
           /\ length table =
              Nat.min 500 (length (filter (fun r => float_ge (churn_probability r) t) D)))
  /\ (length (filter (fun r => float_ge (churn_probability r) 0.5) D) = 600%nat ->
      exists table,
        at_risk_section argsort D 0.5 =
        ([st_info_showing 600 0.5; st_dataframe table], Returned tt)
        /\ length table = 500%nat).
Proof.
  split.
  - rewrite at_risk_section_log, (at_risk_length argsort D t contract).
    eexists. split; [reflexivity|].
    intros table [H|[]].
    destruct (empty (at_risk_customers_filtered argsort D t)); [discriminate|].
    assert (Htable : table =
              firstn 500 (map displayed_row (at_risk_customers_filtered argsort D t)))
      by congruence.
    rewrite Htable.
    rewrite length_firstn, length_map, (at_risk_length argsort D t contract).
    split; [apply Nat.le_min_l | reflexivity].
  - intro H600.
    rewrite at_risk_section_log, (at_risk_length argsort D 0.5 contract), H600.
    pose proof (at_risk_length argsort D 0.5 contract) as Hlen. rewrite H600 in Hlen.
    assert (Hne : empty (at_risk_customers_filtered argsort D 0.5) = false)
      by (destruct (at_risk_customers_filtered argsort D 0.5);
          [discriminate Hlen | reflexivity]).
    rewrite Hne.
    exists (firstn 500 (map displayed_row (at_risk_customers_filtered argsort D 0.5))).
    split; [reflexivity|].
    rewrite length_firstn, length_map, Hlen. reflexivity.
Qed.

(** Scenario C has 600 rows at or above 0.5. *)
Lemma reported_count_is_full_and_table_is_capped_witness :
  length (filter (fun r => float_ge (churn_probability r) 0.5) scenario_C) = 600%nat
  /\ exists table,
       at_risk_section argsort_insertion scenario_C 0.5 =
       ([st_info_showing 600 0.5; st_dataframe table], Returned tt)
       /\ length table = 500%nat.
Proof.
  assert (H : length (filter (fun r => float_ge (churn_probability r) 0.5) scenario_C)
              = 600%nat) by (vm_compute; reflexivity).
  split; [exact H|].
  exact (proj2 (reported_count_is_full_and_table_is_capped
                  argsort_insertion argsort_insertion_contract scenario_C 0.5) H).
Defined.

Lemma filter_length_le {A : Type} (f g : A -> bool) (l : list A) :
  (forall x, f x = true -> g x = true) ->
  (length (filter f l) <= length (filter g l))%nat.
Proof.
  intro H. induction l as [|x l IH]; simpl; auto.
  destruct (f x) eqn:Ef.
  - rewrite (H x Ef). simpl. lia.
  - destruct (g x); simpl; lia.
Qed.

(** C5.  The number of rows of the at-risk list does not grow with the
    threshold: for [t1 < t2] the list at [t1] has at least as many rows as
    the list at [t2]. *)
Theorem at_risk_count_monotone
    (argsort : list Q -> list nat) (contract : argsort_contract argsort)
    (D : DataFrame) (t1 t2 : Q) (Hlt : t1 < t2) :
  (length (at_risk_customers_filtered argsort D t2) <=
   length (at_risk_customers_filtered argsort D t1))%nat.
Proof.
  rewrite !at_risk_length by exact contract.
  apply filter_length_le. intros r H.
  apply float_ge_true in H. destruct H as [q [E Hq]].
  apply float_ge_true. exists q. split; [exact E|].
  apply Qlt_le_weak. eapply Qlt_le_trans; eassumption.
Qed.

(** Scenario B at thresholds 0.3 and 0.8. *)
Lemma at_risk_count_monotone_witness :
  0.3 < 0.8
  /\ (length (at_risk_customers_filtered argsort_insertion scenario_B 0.8) <=
      length (at_risk_customers_filtered argsort_insertion scenario_B 0.3))%nat.
Proof.
  assert (H : 0.3 < 0.8) by (q_compare).
  split; [exact H|].
  exact (at_risk_count_monotone argsort_insertion argsort_insertion_contract
           scenario_B 0.3 0.8 H).
Defined.

(** ** Order of the at-risk list *)

Lemma at_risk_rows_have_numbers (argsort : list Q -> list nat) (df : DataFrame) (t : Q) :
  argsort_contract argsort ->
  Forall (fun r => exists q, churn_probability r = Fin q /\ t <= q)
    (at_risk_customers_filtered argsort df t).
Proof.
  intro contract. apply Forall_forall. intros r Hr.
  apply (at_risk_In argsort df t r contract) in Hr. tauto.
Qed.

(** C3, as the code has it.  Every row of the at-risk list carries a
    number as its churn_probability, and the list is in descending order of
    it.  Nothing is said on the order of rows with equal probability: that is
    whatever the default sorting kernel leaves. *)
Theorem at_risk_sorted_descending
    (argsort : list Q -> list nat) (contract : argsort_contract argsort)
    (D : DataFrame) (t : Q) :
  Forall (fun r => exists q, churn_probability r = Fin q)
    (at_risk_customers_filtered argsort D t)
  /\ StronglySorted (fun a b => prob_value b <= prob_value a)
       (at_risk_customers_filtered argsort D t).
Proof.
  split.
  - eapply Forall_impl; [|apply (at_risk_rows_have_numbers argsort D t contract)].
    simpl. intros r [q [E _]]. exists q. exact E.
  - unfold at_risk_customers_filtered, prob_value.
    apply sort_values_desc_sorted; [exact contract | apply filter_ge_not_nan].
Qed.

(** Scenario B at threshold 0.5, with the insertion kernel. *)
Lemma at_risk_sorted_descending_witness :
  StronglySorted (fun a b => prob_value b <= prob_value a)
    (at_risk_customers_filtered argsort_insertion scenario_B 0.5).
Proof.
  exact (proj2 (at_risk_sorted_descending
                  argsort_insertion argsort_insertion_contract scenario_B 0.5)).
Defined.

(** C3, as the specification has it, fails.  Eighteen customers numbered
    0 to 17 in dataset order all have probability 0.9.  At threshold 0.5
    NumPy's scalar introsort, the kernel that [sort_values] runs for the
    default kind where no SIMD kernel is dispatched, returns them in the
    order 0, 1, 16, 15, ..., 2, 17: the
    list is sorted, yet rows of equal probability have left their
    dataset order, and the list differs from the stable one of the
    specification.  A stable kernel keeps the order on the same input, and
    another kernel that meets the contract loses it: the contract alone does
    not settle the order of ties. *)
Lemma default_sort_reorders_ties :
  map Customer_ID ties18 =
    [0; 1; 2; 3; 4; 5; 6; 7; 8; 9; 10; 11; 12; 13; 14; 15; 16; 17]%Z
  /\ Forall (fun r => churn_probability r = Fin 0.9) ties18
  /\ map Customer_ID (at_risk_customers_filtered npy_argsort ties18 0.5) =
       [0; 1; 16; 15; 14; 13; 12; 11; 10; 9; 8; 7; 6; 5; 4; 3; 2; 17]%Z
  /\ map Customer_ID (at_risk_customers_filtered argsort_insertion ties18 0.5) =
       map Customer_ID ties18
  /\ ~ ties_keep_dataset_order ties18
         (at_risk_customers_filtered npy_argsort ties18 0.5) 0.5
  /\ at_risk_customers_filtered npy_argsort ties18 0.5 <> atRiskCustomers_spec ties18 0.5
  /\ (exists argsort,
        argsort_contract argsort
        /\ ~ ties_keep_dataset_order ties18
              (at_risk_customers_filtered argsort ties18 0.5) 0.5).
Proof.
  assert (Hq : 0.5 <= 0.9) by (q_compare).
  split; [reflexivity|].
  split; [repeat constructor|].
  split; [vm_compute; reflexivity|].
  split; [vm_compute; reflexivity|].
  split; [|split].
  - intro H.
    pose proof (f_equal (map Customer_ID) (H 0.9 Hq)) as H'.
    vm_compute in H'. discriminate H'.
  - intro H. apply (f_equal (map Customer_ID)) in H.
    vm_compute in H. discriminate H.
  - exists argsort_insertion_late. split; [apply argsort_insertion_late_contract|].
    intro H.
    pose proof (f_equal (map Customer_ID) (H 0.9 Hq)) as H'.
    vm_compute in H'. discriminate H'.
Qed.

(** ** Overview metrics *)


Lemma int64_wrap_small (z : Z) :
  (- 2 ^ 63 <= z < 2 ^ 63)%Z -> int64_wrap z = z.
Proof.
  intro H. unfold int64_wrap. rewrite Z.mod_small; lia.
Qed.

Lemma total_flags (col : list Z) :
  Forall (fun z => flag01 z = true) col ->
  (0 <= total col <= Z.of_nat (length col))%Z.
Proof.
  induction 1 as [|z col Hz _ IH]; simpl total; simpl length; [lia|].
  unfold flag01 in Hz. apply andb_true_iff in Hz. destruct Hz as [H0 H1].
  apply Z.leb_le in H0, H1. lia.
Qed.

Lemma sum_flags (col : list Z) :
  Forall (fun z => flag01 z = true) col ->
  (Z.of_nat (length col) < 2 ^ 63)%Z ->
  sum col = total col.
Proof.
  induction 1 as [|z col Hz Hcol IH]; intro Hlen; [reflexivity|].
  simpl. simpl length in Hlen. rewrite IH by lia.
  pose proof (total_flags col Hcol) as Ht.
  unfold flag01 in Hz. apply andb_true_iff in Hz. destruct Hz as [H0 H1].
  apply Z.leb_le in H0, H1.
  unfold int64_add. apply int64_wrap_small. lia.
Qed.

Lemma wf_frame_flags (df : DataFrame) :
  wf_frame df = true ->
  Forall (fun z => flag01 z = true) (map is_churned df)
  /\ Forall (fun z => flag01 z = true) (map predicted_churn df).
Proof.
  intro Hwf. split; apply Forall_map, Forall_forall; intros r Hr;
    pose proof (wf_frame_In df r Hwf Hr) as H; unfold wf_row in H;
    apply andb_true_iff in H; destruct H as [H _];
    apply andb_true_iff in H; tauto.
Qed.

(** The percentage [mean() * 100] of a non-empty column: the quotient and
    the product, each rounded to binary64.  With flags of 0 and 1 it lies in
    [0, 100], and on fewer than 2^53 rows it is within 2^-51 of its size of
    the exact percentage. *)
Lemma mean_percent (col : list Z) :
  col <> [] ->
  exists q,
    float_mul (mean col) 100 = Fin q
    /\ q = B64.round
             (B64.round (inject_Z (total col) / inject_Z (Z.of_nat (length col))) * 100)
    /\ (Forall (fun z => flag01 z = true) col -> 0 <= q <= 100)
    /\ (Forall (fun z => flag01 z = true) col ->
        (Z.of_nat (length col) < 2 ^ 53)%Z ->
        Qabs (q - 100 * (inject_Z (total col) / inject_Z (Z.of_nat (length col))))
        <= 100 * (inject_Z (total col) / inject_Z (Z.of_nat (length col)))
           * B64.pow2 (-51)).
Proof.
  intro Hne. destruct col as [|z col]; [contradiction|].
  set (c := z :: col) in *.
  eexists. split; [reflexivity|]. split; [reflexivity|].
  assert (Hn : (0 < Z.of_nat (length c))%Z) by (unfold c; simpl length; lia).
  split.
  - intro Hflags. apply percent_bounds; [apply total_flags; exact Hflags | exact Hn].
  - intros Hflags Hlen.
    apply percent_error; [apply total_flags; exact Hflags | exact Hn | exact Hlen].
Qed.




(** Scenario A: ten rows, three of them churned, give a rate of 30. *)
Example scenario_A_actual_churn_rate :
  length scenario_A = 10%nat
  /\ total (map is_churned scenario_A) = 3%Z
  /\ actual_churn_rate scenario_A = Fin 30.
Proof. repeat split; vm_compute; reflexivity. Qed.

(** On the floats of the machine the rates of the scenarios are the same
    numbers: 3 of 10 is 30, 2 of 5 is 40 and 3 of 3 is 100. *)
Example scenario_rates_binary64 :
  Binary64.percent 3 10 = Binary64.of_Z 30
  /\ Binary64.percent 2 5 = Binary64.of_Z 40
  /\ Binary64.percent 3 3 = Binary64.of_Z 100.
Proof. repeat split; vm_compute; reflexivity. Qed.

(** [B64.round] against the machine: for every count of flags [s] among
    [n <= 60] rows the percentage it gives is the number the floats of the
    machine hold. *)
Example round_agrees_with_machine :
  forallb (fun p =>
             Binary64.same_number
               (Binary64.to_Q (Binary64.percent (fst p) (snd p)))
               (B64.round (B64.round (inject_Z (fst p) / inject_Z (snd p)) * 100)))
          (Binary64.flag_counts 60) = true.
Proof. vm_compute. reflexivity. Qed.

(** ** Churn rate by country *)

Lemma insert_key_perm (c : string) (keys : list string) :
  Permutation (c :: keys) (insert_key c keys).
Proof.
  induction keys as [|k keys IH]; simpl; auto.
  destruct (String.leb c k); auto.
  apply Permutation_trans with (k :: c :: keys); [apply perm_swap | auto].
Qed.

Lemma group_keys_perm (col : list string) :
  Permutation (nodup string_dec col) (group_keys col).
Proof.
  unfold group_keys. induction (nodup string_dec col) as [|c l IH]; simpl; auto.
  apply Permutation_trans with (c :: fold_right insert_key [] l); auto.
  apply insert_key_perm.
Qed.

Lemma group_keys_NoDup (col : list string) : NoDup (group_keys col).
Proof.
  apply (Permutation_NoDup (group_keys_perm col)), NoDup_nodup.
Qed.

Lemma group_keys_In (col : list string) (c : string) :
  In c (group_keys col) <-> In c col.
Proof.
  rewrite <- (nodup_In string_dec col c). split; intro H.
  - exact (Permutation_in c (Permutation_sym (group_keys_perm col)) H).
  - exact (Permutation_in c (group_keys_perm col) H).
Qed.

Lemma groupby_mean_keys (key : Row -> string) (val : Row -> Z) (df : DataFrame) :
  map fst (groupby_mean key val df) = group_keys (map key df).
Proof. unfold groupby_mean. rewrite map_map. simpl. apply map_id. Qed.

Lemma groupby_mean_In (key : Row -> string) (val : Row -> Z) (df : DataFrame)
    (e : string * float64) :
  In e (groupby_mean key val df) ->
  In (fst e) (map key df)
  /\ snd e = mean (map val (filter (fun r => String.eqb (key r) (fst e)) df))
  /\ filter (fun r => String.eqb (key r) (fst e)) df <> [].
Proof.
  unfold groupby_mean. intro H. apply in_map_iff in H.
  destruct H as [k [E Hk]]. subst e. simpl.
  apply (proj1 (group_keys_In _ _)) in Hk. split; [exact Hk|]. split; [reflexivity|].
  apply in_map_iff in Hk. destruct Hk as [r [Er Hr]].
  intro Hnil.
  assert (Hin : In r (filter (fun r => String.eqb (key r) k) df))
    by (apply filter_In; split; [exact Hr | apply String.eqb_eq; exact Er]).
  rewrite Hnil in Hin. contradiction.
Qed.

Lemma groupby_mean_not_nan (key : Row -> string) (val : Row -> Z) (df : DataFrame) :
  Forall (fun e => snd e <> NaN) (groupby_mean key val df).
Proof.
  apply Forall_forall. intros e He.
  destruct (groupby_mean_In key val df e He) as [_ [E Hne]].
  rewrite E.
  destruct (filter (fun r => String.eqb (key r) (fst e)) df); [contradiction|].
  discriminate.
Qed.




Lemma group_flags (D : DataFrame) (c : string) :
  wf_frame D = true ->
  Forall (fun z => flag01 z = true)
    (map is_churned
       (filter (fun r => String.eqb (PrimaryCountry_Grouped_Original r) c) D)).
Proof.
  intro Hwf. apply Forall_map, Forall_forall. intros r Hr.
  apply filter_In in Hr. destruct Hr as [Hr _].
  pose proof (wf_frame_In D r Hwf Hr) as H. unfold wf_row in H.
  apply andb_true_iff in H. destruct H as [H _].
  apply andb_true_iff in H. tauto.
Qed.

Lemma group_length_le (D : DataFrame) (c : string) :
  (length (filter (fun r => String.eqb (PrimaryCountry_Grouped_Original r) c) D)
   <= length D)%nat.
Proof.
  pose proof (filter_length_le
                (fun r => String.eqb (PrimaryCountry_Grouped_Original r) c)
                (fun _ => true) D (fun _ _ => eq_refl)) as H.
  rewrite (filter_id (fun _ => true) D) in H by (apply forallb_forall; auto).
  exact H.
Qed.




(** ** Loading, and the run as a whole *)

Lemma load_data_ok (df : DataFrame) : load_data (inl df) = ([], Returned df).
Proof. reflexivity. Qed.

Lemma load_data_not_found (msg : string) :
  load_data (inr (FileNotFoundError msg)) = ([st_error msg_not_found], Returned []).
Proof. reflexivity. Qed.

Lemma load_data_unreadable (e : exn) :
  (forall msg, e <> FileNotFoundError msg) ->
  load_data (inr e) = ([st_error (msg_unreadable e)], Returned []).
Proof.
  intro H. destruct e as [msg|msg|msg]; try reflexivity.
  exfalso. apply (H msg). reflexivity.
Qed.

Lemma msg_unreadable_distinct (e : exn) : msg_unreadable e <> msg_not_found.
Proof. unfold msg_unreadable, msg_not_found. simpl. discriminate. Qed.

Lemma load_data_log (src : source) : Forall is_st_error (fst (load_data src)).
Proof.
  destruct src as [df|[msg|msg|msg]]; simpl; repeat constructor; eexists; reflexivity.
Qed.

Lemma script_stops (argsort : list Q -> list nat) (src : source)
    (t : option (slider_value 0.0 1.0)) :
  snd (load_data src) = Returned [] ->
  script argsort src t = (fst (load_data src), Stopped).
Proof.
  unfold script. destruct (load_data src) as [log o]. simpl. intro E. subst o.
  simpl. rewrite app_nil_r. reflexivity.
Qed.

Lemma st_slider_threshold (ui : option (slider_value 0.0 1.0)) :
  st_slider 0.0 1.0 0.5 0.01 ui = ret (slider_threshold ui).
Proof. destruct ui; reflexivity. Qed.

Lemma script_runs (argsort : list Q -> list nat) (D : DataFrame)
    (ui : option (slider_value 0.0 1.0)) :
  D <> [] ->
  script argsort (inl D) ui =
  ( [ st_metric "Total Customers" (CInt (Z.of_nat (total_customers D)));
      st_metric "Actual Churn Rate" (CFloat (actual_churn_rate D));
      st_metric "Predicted Churn Rate" (CFloat (predicted_churn_rate D));
      st_metric "Predicted Churners" (CInt (predicted_churners D));
      st_plotly_chart "Top 10 Feature Importances" feature_importance_df;
      st_plotly_chart "Churn Rate by Country Group" (churn_by_country argsort D) ]
    ++ fst (at_risk_section argsort D (slider_threshold ui)),
    Returned tt ).
Proof.
  intro Hne. destruct D as [|r D]; [contradiction|].
  unfold script. rewrite load_data_ok, st_slider_threshold.
  change (negb (empty feature_importance_df)) with true.
  unfold bind, ret, st. cbn [empty app].
  rewrite at_risk_section_log. reflexivity.
Qed.

(** ** The threshold of a run *)






(** C7.  [load_data] always returns to its caller and never raises: when
    the file is missing it reports the not-found message and returns the
    empty frame; on any other fault of the read it reports a message that
    differs from the not-found one and returns the empty frame as well.
    Whenever the frame it returned is empty the script stops at once: the
    log of the run holds the messages of [load_data] and nothing else, so no
    metric, chart or table was computed. *)
Theorem load_never_raises_and_empty_frame_stops :
  (forall src, exists df, snd (load_data src) = Returned df)
  /\ (forall msg,
        load_data (inr (FileNotFoundError msg)) = ([st_error msg_not_found], Returned []))
  /\ (forall e, (forall msg, e <> FileNotFoundError msg) ->
        load_data (inr e) = ([st_error (msg_unreadable e)], Returned [])
        /\ msg_unreadable e <> msg_not_found)
  /\ (forall argsort src t, snd (load_data src) = Returned [] ->
        script argsort src t = (fst (load_data src), Stopped)
        /\ Forall is_st_error (fst (script argsort src t))).
Proof.
  split.
  { intros [df|[msg|msg|msg]]; eexists; reflexivity. }
  split; [exact load_data_not_found|].
  split.
  { intros e He. split; [apply load_data_unreadable; exact He|].
    apply msg_unreadable_distinct. }
  intros argsort src t E. rewrite (script_stops argsort src t E).
  split; [reflexivity | apply load_data_log].
Qed.

(** A file without columns: the read fails, the run reports it and stops. *)
Lemma load_never_raises_and_empty_frame_stops_witness :
  snd (load_data (inr (OtherException "No columns to parse from file"))) = Returned []
  /\ script npy_argsort (inr (OtherException "No columns to parse from file")) None =
       ([st_error "Error loading customer churn predictions data: No columns to parse from file"],
        Stopped).
Proof.
  split; [reflexivity|].
  exact (proj1 (proj2 (proj2 (proj2 load_never_raises_and_empty_frame_stops))
                  npy_argsort (inr (OtherException "No columns to parse from file")) None
                  eq_refl)).
Defined.

(** C9.  The feature-importance table is a constant: the four pairs
    Recency 0.40, Frequency 0.30, Monetary 0.20, Tenure 0.10 in this order,
    which is descending by importance.  Every run on a non-empty dataset
    charts exactly this table, and no run charts another one under this
    title, whatever the dataset and the threshold. *)
Theorem feature_importance_is_constant :
  feature_importance_df =
    [ ("Recency"%string, Fin 0.40); ("Frequency"%string, Fin 0.30);
      ("Monetary"%string, Fin 0.20); ("Tenure"%string, Fin 0.10) ]
  /\ StronglySorted (fun a b => fin_value (snd b) <= fin_value (snd a))
       feature_importance_df
  /\ (forall argsort (D : DataFrame) t, D <> [] ->
        In (st_plotly_chart "Top 10 Feature Importances" feature_importance_df)
           (fst (script argsort (inl D) t)))
  /\ (forall argsort src t data,
        In (st_plotly_chart "Top 10 Feature Importances" data)
           (fst (script argsort src t)) ->
        data = feature_importance_df).
Proof.
  split; [reflexivity|].
  split.
  { repeat constructor; q_compare. }
  split.
  { intros argsort D t Hne. rewrite (script_runs argsort D t Hne). simpl. tauto. }
  intros argsort src t data Hin.
  destruct src as [[|r D]|e].
  - simpl in Hin. contradiction.
  - rewrite (script_runs argsort (r :: D) t) in Hin by discriminate.
    rewrite at_risk_section_log in Hin. simpl in Hin.
    destruct Hin as [H|[H|[H|[H|[H|[H|[H|[H|[]]]]]]]]]; try discriminate H.
    + injection H as E. symmetry. exact E.
    + destruct (empty (at_risk_customers_filtered argsort (r :: D) (slider_threshold t)));
        discriminate H.
  - assert (E : snd (load_data (inr e)) = Returned [])
      by (destruct e; reflexivity).
    rewrite (script_stops argsort (inr e) t E) in Hin.
    pose proof (load_data_log (inr e)) as Hlog.
    rewrite Forall_forall in Hlog. destruct (Hlog _ Hin) as [body Hb]. discriminate Hb.
Qed.

(** A run on Scenario B. *)
Lemma feature_importance_is_constant_witness :
  scenario_B <> []
  /\ In (st_plotly_chart "Top 10 Feature Importances" feature_importance_df)
        (fst (script npy_argsort (inl scenario_B) None)).
Proof.
  assert (Hne : scenario_B <> []) by discriminate.
  split; [exact Hne|].
  exact (proj1 (proj2 (proj2 feature_importance_is_constant))
           npy_argsort scenario_B None Hne).
Defined.

Lemma In_firstn {A : Type} (n : nat) (l : list A) (x : A) :
  In x (firstn n l) -> In x l.
Proof.
  intro H. rewrite <- (firstn_skipn n l). apply in_or_app. left. exact H.
Qed.

(** C10.  When the at-risk list is not empty, the table that is shown is
    made of its first 500 rows, each cut down to the eight columns Customer
    ID, churn_probability, predicted_churn, Recency, Frequency, Monetary,
    Tenure, PrimaryCountry_Grouped_Original, in this order and with the
    cells the row has under these labels; no other column of the dataset is
    shown.  The rows of the at-risk list itself are rows of the dataset,
    with all their columns. *)
Theorem at_risk_table_shows_eight_columns
    (argsort : list Q -> list nat) (contract : argsort_contract argsort)
    (D : DataFrame) (t : Q)
    (Hne : at_risk_customers_filtered argsort D t <> []) :
  (exists table,
      at_risk_section argsort D t =
      ( [ st_info_showing (length (at_risk_customers_filtered argsort D t)) t;
          st_dataframe table ],
        Returned tt )
      /\ table = firstn 500 (map displayed_row (at_risk_customers_filtered argsort D t))
      /\ Forall (fun shown => map fst shown = display_cols) table
      /\ (forall c, ~ In c display_cols ->
            Forall (fun shown => ~ In c (map fst shown)) table))
  /\ (forall r c v, In (c, v) (displayed_row r) -> lookup c (columns r) = Some v)
  /\ ~ In "is_churned"%string display_cols
  /\ (forall r, In r (at_risk_customers_filtered argsort D t) -> In r D).
Proof.
  assert (Hcols : forall rows, Forall (fun shown => map fst shown = display_cols)
                                 (firstn 500 (map displayed_row rows))).
  { intro rows. apply Forall_forall. intros shown Hs.
    apply In_firstn in Hs. apply in_map_iff in Hs.
    destruct Hs as [r [E _]]. subst shown. reflexivity. }
  split.
  { exists (firstn 500 (map displayed_row (at_risk_customers_filtered argsort D t))).
    split.
    - rewrite at_risk_section_log.
      destruct (at_risk_customers_filtered argsort D t); [contradiction | reflexivity].
    - split; [reflexivity|]. split; [apply Hcols|].
      intros c Hc. eapply Forall_impl; [|apply Hcols].
      simpl. intros shown E. rewrite E. exact Hc. }
  split.
  { intros r c v Hin. simpl in Hin.
    repeat (destruct Hin as [Hin|Hin]; [injection Hin as <- <-; reflexivity|]).
    contradiction. }
  split.
  { simpl. intro H.
    repeat (destruct H as [H|H]; [discriminate H|]). contradiction. }
  intros r Hr. apply (at_risk_In argsort D t r contract) in Hr. tauto.
Qed.

(** Scenario B at threshold 0.5: the at-risk list is not empty. *)
Lemma at_risk_table_shows_eight_columns_witness :
  at_risk_customers_filtered argsort_insertion scenario_B 0.5 <> []
  /\ forall r, In r (at_risk_customers_filtered argsort_insertion scenario_B 0.5) ->
               In r scenario_B.
Proof.
  assert (Hne : at_risk_customers_filtered argsort_insertion scenario_B 0.5 <> [])
    by (vm_compute; discriminate).
  split; [exact Hne|].
  exact (proj2 (proj2 (proj2 (at_risk_table_shows_eight_columns
                  argsort_insertion argsort_insertion_contract scenario_B 0.5 Hne)))).
Defined.

(** * Further properties of the script *)

(** ** The run as a whole *)

Lemma In_take {A : Type} (l : list A) (idx : list nat) (x : A) :
  In x (take l idx) -> In x l.
Proof.
  induction idx as [|i idx IH]; simpl; [contradiction|].
  intro H. apply in_app_or in H. destruct H as [H|H]; [|auto].
  destruct (nth_error l i) as [y|] eqn:E; [|contradiction].
  destruct H as [H|[]]. subst y. eapply nth_error_In. exact E.
Qed.

(** X2.  A run stops exactly when the read failed or gave a frame without
    rows, and it shows an error message exactly when the read failed: a file
    that is read but has no rows stops the run without a word. *)
Theorem run_stops_exactly_on_empty_frame
    (argsort : list Q -> list nat) (src : source)
    (ui : option (slider_value 0.0 1.0)) :
  (snd (script argsort src ui) = Stopped <->
   src = inl [] \/ exists e, src = inr e)
  /\ ((exists body, In (st_error body) (fst (script argsort src ui))) <->
      exists e, src = inr e)
  /\ script argsort (inl []) ui = ([], Stopped).
Proof.
  destruct src as [[|r D]|e].
  - repeat split; try discriminate; auto.
    + intros [body []].
    + intros [e He]. discriminate He.
  - assert (Hne : r :: D <> []) by discriminate.
    rewrite (script_runs argsort (r :: D) ui Hne), at_risk_section_log.
    cbn [fst snd app].
    repeat split; try discriminate.
    + intros [H|[e He]]; discriminate.
    + intros [body H].
      repeat (destruct H as [H|H]; [try discriminate H|]); try contradiction.
      destruct (empty (at_risk_customers_filtered argsort (r :: D) (slider_threshold ui)));
        discriminate H.
    + intros [e He]. discriminate He.
  - assert (E : snd (load_data (inr e)) = Returned []) by (destruct e; reflexivity).
    rewrite (script_stops argsort (inr e) ui E). simpl.
    repeat split; try discriminate.
    + intros _. right. exists e. reflexivity.
    + intros _. exists e. reflexivity.
    + intros _. destruct e; eexists; left; reflexivity.
Qed.

Lemma mean_not_nan (col : list Z) : col <> [] -> float_mul (mean col) 100 <> NaN.
Proof. destruct col; [contradiction | discriminate]. Qed.

Lemma churn_by_country_not_nan (argsort : list Q -> list nat) (D : DataFrame) :
  Forall (fun e => snd e <> NaN) (churn_by_country argsort D).
Proof.
  apply Forall_forall. intros e He. unfold churn_by_country in He.
  apply in_map_iff in He. destruct He as [e' [E He']]. subst e. simpl.
  apply In_take in He'.
  destruct (groupby_mean_In _ _ _ _ He') as [_ [Em Hne]]. rewrite Em.
  apply mean_not_nan. intro Hnil. apply map_eq_nil in Hnil. contradiction.
Qed.

(** X3.  The rates of a run are numbers.  On every frame of the data model
    (integer flags and a country on every row), at every threshold and with
    every sorting kernel, the two rate metrics are not NaN and no bar of the
    two charts is, although the mean of an empty column is NaN: the guard on
    the empty frame stops the run before a mean is taken, and no group of
    the country chart is empty.  (The table is not concerned: it shows the
    cells of the dataset as they are.) *)
Theorem run_rates_are_numbers
    (argsort : list Q -> list nat) (src : source)
    (ui : option (slider_value 0.0 1.0)) :
  Forall rates_are_numbers (fst (script argsort src ui))
  /\ mean (map is_churned []) = NaN.
Proof.
  split; [|reflexivity].
  destruct src as [[|r D]|e].
  - constructor.
  - assert (Hne : r :: D <> []) by discriminate.
    rewrite (script_runs argsort (r :: D) ui Hne), at_risk_section_log.
    cbn [fst app].
    repeat (constructor; [first [exact I | discriminate | idtac]|]).
    + repeat constructor; discriminate.
    + apply churn_by_country_not_nan.
    + destruct (empty (at_risk_customers_filtered argsort (r :: D) (slider_threshold ui)));
        exact I.
    + constructor.
  - assert (E : snd (load_data (inr e)) = Returned []) by (destruct e; reflexivity).
    rewrite (script_stops argsort (inr e) ui E).
    destruct e; repeat constructor.
Qed.

(** ** The at-risk section at its edges *)

(** X4.  The table is shown exactly when some row passes the threshold.
    When none does, the section is the count 0 followed by the sentence that
    no customer is at risk.  When some do, it is their count, between 1 and
    the number of rows of the dataset, followed by a table that is not
    empty. *)
Theorem at_risk_table_shown_iff_some_row_passes
    (argsort : list Q -> list nat) (contract : argsort_contract argsort)
    (D : DataFrame) (t : Q) :
  (filter (fun r => float_ge (churn_probability r) t) D = [] ->
   at_risk_section argsort D t =
   ( [ st_info_showing 0 t;
       st_write "No customers identified as 'at-risk' with the current threshold." ],
     Returned tt ))
  /\ (filter (fun r => float_ge (churn_probability r) t) D <> [] ->
      exists n table,
        at_risk_section argsort D t =
        ([st_info_showing n t; st_dataframe table], Returned tt)
        /\ table <> []
        /\ (1 <= n <= length D)%nat).
Proof.
  pose proof (at_risk_length argsort D t contract) as Hlen.
  split; intro H.
  - rewrite at_risk_section_log.
    rewrite H in Hlen. simpl in Hlen.
    destruct (at_risk_customers_filtered argsort D t); [reflexivity | discriminate Hlen].
  - rewrite at_risk_section_log.
    destruct (at_risk_customers_filtered argsort D t) as [|r F] eqn:E.
    + simpl in Hlen.
      destruct (filter (fun r => float_ge (churn_probability r) t) D);
        [contradiction | discriminate Hlen].
    + exists (length (r :: F)), (firstn 500 (map displayed_row (r :: F))).
      split; [reflexivity|]. split; [discriminate|].
      rewrite Hlen. split.
      * destruct (filter (fun r => float_ge (churn_probability r) t) D);
          [contradiction | simpl; lia].
      * pose proof (filter_length_le
                      (fun r => float_ge (churn_probability r) t) (fun _ => true) D
                      (fun _ _ => eq_refl)) as H'.
        rewrite (filter_id (fun _ => true) D) in H' by (apply forallb_forall; auto).
        exact H'.
Qed.

(** In Scenario B no probability reaches 1.5. *)
Lemma at_risk_table_shown_iff_some_row_passes_witness :
  filter (fun r => float_ge (churn_probability r) 1.5) scenario_B = []
  /\ at_risk_section argsort_insertion scenario_B 1.5 =
     ( [ st_info_showing 0 1.5;
         st_write "No customers identified as 'at-risk' with the current threshold." ],
       Returned tt ).
Proof.
  assert (H : filter (fun r => float_ge (churn_probability r) 1.5) scenario_B = [])
    by reflexivity.
  split; [exact H|].
  exact (proj1 (at_risk_table_shown_iff_some_row_passes
                  argsort_insertion argsort_insertion_contract scenario_B 1.5) H).
Defined.

Lemma StronglySorted_app_cross {A : Type} (R : A -> A -> Prop) (l1 l2 : list A) :
  StronglySorted R (l1 ++ l2) ->
  StronglySorted R l1 /\ forall a b, In a l1 -> In b l2 -> R a b.
Proof.
  induction l1 as [|x l1 IH]; simpl; intro H.
  - split; [constructor | contradiction].
  - inversion H as [|? ? Hs Hx]; subst. destruct (IH Hs) as [Hs1 Hc].
    rewrite Forall_app in Hx. destruct Hx as [Hx1 Hx2]. split.
    + constructor; assumption.
    + intros a b [Ea|Ha] Hb.
      * subst a. rewrite Forall_forall in Hx2. apply Hx2. exact Hb.
      * apply Hc; assumption.
Qed.

(** X5.  The table holds the rows of highest probability: the at-risk list is
    cut after 500 rows, every row that is cut off has a probability no larger
    than every row that is shown, the rows that are shown are in descending
    order, and the churn_probability cell of each of them is a number at or
    above the threshold. *)
Theorem table_holds_highest_probabilities
    (argsort : list Q -> list nat) (contract : argsort_contract argsort)
    (D : DataFrame) (t : Q) :
  (forall a b,
      In a (firstn 500 (at_risk_customers_filtered argsort D t)) ->
      In b (skipn 500 (at_risk_customers_filtered argsort D t)) ->
      prob_value b <= prob_value a)
  /\ StronglySorted (fun a b => prob_value b <= prob_value a)
       (firstn 500 (at_risk_customers_filtered argsort D t))
  /\ (forall shown,
        In shown (firstn 500 (map displayed_row (at_risk_customers_filtered argsort D t))) ->
        exists q, lookup "churn_probability" shown = Some (CFloat (Fin q)) /\ t <= q).
Proof.
  assert (Hs : StronglySorted (fun a b => prob_value b <= prob_value a)
                 (at_risk_customers_filtered argsort D t)).
  { unfold at_risk_customers_filtered, prob_value.
    apply sort_values_desc_sorted; [exact contract | apply filter_ge_not_nan]. }
  rewrite <- (firstn_skipn 500 (at_risk_customers_filtered argsort D t)) in Hs.
  apply StronglySorted_app_cross in Hs. destruct Hs as [Hs Hc].
  split; [exact Hc|]. split; [exact Hs|].
  intros shown Hin. apply In_firstn in Hin. apply in_map_iff in Hin.
  destruct Hin as [r [E Hr]]. subst shown.
  apply (at_risk_In argsort D t r contract) in Hr.
  destruct Hr as [_ [q [Eq Hq]]]. exists q. simpl. rewrite Eq. auto.
Qed.

(** Scenario C: the 500 rows shown against the 100 rows cut off. *)
Lemma table_holds_highest_probabilities_witness :
  StronglySorted (fun a b => prob_value b <= prob_value a)
    (firstn 500 (at_risk_customers_filtered argsort_insertion scenario_C 0.5)).
Proof.
  exact (proj1 (proj2 (table_holds_highest_probabilities
                         argsort_insertion argsort_insertion_contract scenario_C 0.5))).
Defined.

Lemma filter_perm {A : Type} (f : A -> bool) (l l' : list A) :
  Permutation l l' -> Permutation (filter f l) (filter f l').
Proof.
  induction 1 as [|x l l' _ IH|x y l|l l' l'' _ IH1 _ IH2]; simpl.
  - constructor.
  - destruct (f x); auto.
  - destruct (f x), (f y); auto. apply perm_swap.
  - eapply Permutation_trans; eassumption.
Qed.

Lemma filter_ge_twice (D : DataFrame) (t1 t2 : Q) :
  t1 <= t2 ->
  filter (fun r => float_ge (churn_probability r) t2)
    (filter (fun r => float_ge (churn_probability r) t1) D) =
  filter (fun r => float_ge (churn_probability r) t2) D.
Proof.
  intro Ht. induction D as [|r D IH]; simpl; auto.
  destruct (float_ge (churn_probability r) t1) eqn:E1; simpl.
  - rewrite IH. reflexivity.
  - rewrite IH.
    destruct (float_ge (churn_probability r) t2) eqn:E2; auto.
    apply float_ge_true in E2. destruct E2 as [q [Eq Hq]].
    assert (E : float_ge (churn_probability r) t1 = true)
      by (apply float_ge_true; exists q; split; [exact Eq | eapply Qle_trans; eassumption]).
    congruence.
Qed.

(** X6.  Raising the threshold only takes rows away: for [t1 <= t2] the
    at-risk list at [t2] has the rows of the at-risk list at [t1] that are at
    or above [t2], each as often, so filtering the list again gives what
    filtering the dataset gives. *)
Theorem at_risk_refines_with_threshold
    (argsort : list Q -> list nat) (contract : argsort_contract argsort)
    (D : DataFrame) (t1 t2 : Q) (Hle : t1 <= t2) :
  Permutation (at_risk_customers_filtered argsort D t2)
    (filter (fun r => float_ge (churn_probability r) t2)
       (at_risk_customers_filtered argsort D t1))
  /\ (forall r, In r (at_risk_customers_filtered argsort D t2) ->
                In r (at_risk_customers_filtered argsort D t1)).
Proof.
  assert (Hp : Permutation (at_risk_customers_filtered argsort D t2)
                 (filter (fun r => float_ge (churn_probability r) t2)
                    (at_risk_customers_filtered argsort D t1))).
  { apply Permutation_trans
      with (filter (fun r => float_ge (churn_probability r) t2) D).
    - apply Permutation_sym, at_risk_perm, contract.
    - rewrite <- (filter_ge_twice D t1 t2 Hle).
      apply filter_perm, at_risk_perm, contract. }
  split; [exact Hp|].
  intros r Hr. apply (Permutation_in r Hp) in Hr.
  apply filter_In in Hr. tauto.
Qed.

(** Scenario B at thresholds 0.3 and 0.8. *)
Lemma at_risk_refines_with_threshold_witness :
  0.3 <= 0.8
  /\ forall r, In r (at_risk_customers_filtered argsort_insertion scenario_B 0.8) ->
               In r (at_risk_customers_filtered argsort_insertion scenario_B 0.3).
Proof.
  assert (H : 0.3 <= 0.8) by q_compare.
  split; [exact H|].
  exact (proj2 (at_risk_refines_with_threshold
                  argsort_insertion argsort_insertion_contract scenario_B 0.3 0.8 H)).
Defined.

(** ** The metrics against each other *)

Lemma percent_times_rows (col : list Z) (q : Q) :
  col <> [] ->
  Qabs (q - 100 * (inject_Z (total col) / inject_Z (Z.of_nat (length col))))
  <= 100 * (inject_Z (total col) / inject_Z (Z.of_nat (length col))) * B64.pow2 (-51) ->
  Qabs (q * inject_Z (Z.of_nat (length col)) - 100 * inject_Z (total col))
  <= 100 * inject_Z (total col) * B64.pow2 (-51).
Proof.
  intros Hne H.
  set (n := inject_Z (Z.of_nat (length col))) in *.
  set (c := inject_Z (total col)) in *.
  assert (Hn : 0 < n).
  { unfold n. destruct col as [|z col]; [contradiction|].
    simpl length. unfold Qlt. simpl. lia. }
  assert (Hn0 : ~ n == 0) by (intro E; rewrite E in Hn; apply (Qlt_irrefl 0 Hn)).
  assert (E1 : q * n - 100 * c == (q - 100 * (c / n)) * n) by (field; exact Hn0).
  assert (E2 : 100 * c * B64.pow2 (-51) == 100 * (c / n) * B64.pow2 (-51) * n)
    by (field; exact Hn0).
  rewrite E1, E2, Qabs_Qmult.
  rewrite (Qabs_pos n) by (apply Qlt_le_weak; exact Hn).
  apply Qmult_le_compat_r; [exact H | apply Qlt_le_weak; exact Hn].
Qed.

(** X7.  The predicted churn rate and the predicted churner count agree as
    far as binary64 lets them: on a non-empty dataset with flags 0 or 1 and
    fewer than 2^53 rows the count lies between 0 and the number of rows,
    the rate times the number of rows differs from 100 times the count by at
    most 2^-51 of that number, and the rate is 0 exactly when the count
    is. *)
Theorem predicted_rate_matches_count
    (D : DataFrame) (Hne : D <> []) (Hwf : wf_frame D = true)
    (Hlen : (Z.of_nat (length D) < 2 ^ 53)%Z) :
  (0 <= predicted_churners D <= Z.of_nat (length D))%Z
  /\ exists q,
       predicted_churn_rate D = Fin q
       /\ Qabs (q * inject_Z (Z.of_nat (length D))
                - 100 * inject_Z (predicted_churners D))
          <= 100 * inject_Z (predicted_churners D) * B64.pow2 (-51)
       /\ (q == 0 <-> predicted_churners D = 0%Z).
Proof.
  destruct (wf_frame_flags D Hwf) as [_ Hflags].
  assert (Hsum : predicted_churners D = total (map predicted_churn D)).
  { unfold predicted_churners. apply sum_flags; [exact Hflags|].
    rewrite length_map. lia. }
  rewrite Hsum.
  pose proof (total_flags _ Hflags) as Hc. rewrite length_map in Hc.
  split; [exact Hc|].
  assert (Hcol : map predicted_churn D <> [])
    by (destruct D; [contradiction | discriminate]).
  destruct (mean_percent (map predicted_churn D) Hcol) as [q [E [_ [_ He]]]].
  specialize (He Hflags). rewrite length_map in He. specialize (He Hlen).
  pose proof (percent_times_rows (map predicted_churn D) q Hcol) as Hm.
  rewrite length_map in Hm. specialize (Hm He).
  exists q. split; [exact E|]. split; [exact Hm|].
  assert (Hp : B64.pow2 (-51) == 1 # 2251799813685248) by (vm_compute; reflexivity).
  assert (Hn : 0 < inject_Z (Z.of_nat (length D))).
  { destruct D; [contradiction|]. simpl length. unfold Qlt. simpl. lia. }
  set (n := inject_Z (Z.of_nat (length D))) in *.
  set (c := inject_Z (total (map predicted_churn D))) in *.
  assert (Hc0 : 0 <= c) by (unfold c, Qle; simpl; lia).
  rewrite Hp in Hm. apply Qabs_Qle_condition in Hm. destruct Hm as [Hlo Hhi].
  split.
  - intro Hq. rewrite Hq in Hlo.
    assert (Hz : c <= 0) by lra.
    unfold c, Qle in Hz. simpl in Hz. lia.
  - intro Hz. assert (Ec : c == 0) by (unfold c; rewrite Hz; reflexivity).
    rewrite Ec in Hlo, Hhi.
    assert (Hqn : q * n == 0) by lra.
    apply Qmult_integral in Hqn. destruct Hqn as [Hq|Hq]; [exact Hq|].
    rewrite Hq in Hn. exfalso. apply (Qlt_irrefl 0 Hn).
Qed.

(** Scenario B: eight rows, five of them predicted to churn. *)
Lemma predicted_rate_matches_count_witness :
  scenario_B <> [] /\ wf_frame scenario_B = true
  /\ (0 <= predicted_churners scenario_B <= Z.of_nat (length scenario_B))%Z.
Proof.
  assert (Hne : scenario_B <> []) by discriminate.
  assert (Hlen : (Z.of_nat (length scenario_B) < 2 ^ 53)%Z) by (vm_compute; reflexivity).
  split; [exact Hne|]. split; [reflexivity|].
  exact (proj1 (predicted_rate_matches_count scenario_B Hne eq_refl Hlen)).
Defined.

Lemma nodup_length_le (col : list Z) :
  (length (nodup Z.eq_dec col) <= length col)%nat.
Proof.
  induction col as [|z col IH]; simpl; auto.
  destruct (in_dec Z.eq_dec z col); simpl; lia.
Qed.

Lemma nodup_length_eq (col : list Z) :
  length (nodup Z.eq_dec col) = length col <-> NoDup col.
Proof.
  split.
  - induction col as [|z col IH]; simpl; intro H; [constructor|].
    destruct (in_dec Z.eq_dec z col) as [Hin|Hin].
    + pose proof (nodup_length_le col). lia.
    + simpl in H. constructor; [exact Hin | apply IH; lia].
  - intro H. rewrite (nodup_fixed_point Z.eq_dec H). reflexivity.
Qed.

(** X8.  The customer total is at most the number of rows and at least 1 on
    a non-empty dataset; it is the number of rows exactly when no Customer
    ID occurs on two rows. *)
Theorem total_customers_bounds (D : DataFrame) :
  (total_customers D <= length D)%nat
  /\ (D <> [] -> (1 <= total_customers D)%nat)
  /\ (total_customers D = length D <-> NoDup (map Customer_ID D)).
Proof.
  unfold total_customers, nunique.
  split; [|split].
  - pose proof (nodup_length_le (map Customer_ID D)) as H.
    rewrite length_map in H. exact H.
  - intro Hne. destruct D as [|r D]; [contradiction|].
    assert (Hin : In (Customer_ID r) (nodup Z.eq_dec (map Customer_ID (r :: D))))
      by (apply nodup_In; left; reflexivity).
    destruct (nodup Z.eq_dec (map Customer_ID (r :: D))); [contradiction | simpl; lia].
  - rewrite <- nodup_length_eq, length_map. reflexivity.
Qed.

(** Scenario B: eight rows with eight Customer IDs. *)
Lemma total_customers_bounds_witness :
  scenario_B <> [] /\ (1 <= total_customers scenario_B)%nat.
Proof.
  assert (Hne : scenario_B <> []) by discriminate.
  split; [exact Hne|].
  exact (proj1 (proj2 (total_customers_bounds scenario_B)) Hne).
Defined.

(** ** The country chart against the overall rate *)

Lemma total_map_plus {A : Type} (f g : A -> Z) (l : list A) :
  total (map (fun k => f k + g k)%Z l) = (total (map f l) + total (map g l))%Z.
Proof. induction l as [|k l IH]; simpl; [reflexivity|]. rewrite IH. lia. Qed.

Lemma total_indicator_out (c : string) (x : Z) (keys : list string) :
  ~ In c keys ->
  total (map (fun k => if String.eqb c k then x else 0%Z) keys) = 0%Z.
Proof.
  induction keys as [|k keys IH]; simpl; intro H; [reflexivity|].
  destruct (String.eqb_spec c k) as [E|E]; [exfalso; apply H; left; auto|].
  rewrite IH; [reflexivity | intro Hin; apply H; right; exact Hin].
Qed.

Lemma total_indicator (c : string) (x : Z) (keys : list string) :
  NoDup keys -> In c keys ->
  total (map (fun k => if String.eqb c k then x else 0%Z) keys) = x.
Proof.
  induction 1 as [|k keys Hk Hnd IH]; simpl; intro Hin; [contradiction|].
  destruct (String.eqb_spec c k) as [E|E].
  - subst k. rewrite total_indicator_out by exact Hk. lia.
  - destruct Hin as [Hin|Hin]; [congruence|]. rewrite IH by exact Hin. lia.
Qed.

Lemma total_by_key (key : Row -> string) (val : Row -> Z)
    (keys : list string) (df : DataFrame) :
  NoDup keys -> (forall r, In r df -> In (key r) keys) ->
  total (map (fun k => total (map val (filter (fun r => String.eqb (key r) k) df))) keys)
  = total (map val df).
Proof.
  intros Hnd. induction df as [|r df IH]; intro Hin.
  - simpl. clear Hnd Hin. induction keys as [|k keys IHk]; simpl; [reflexivity|].
    rewrite IHk. reflexivity.
  - rewrite (map_ext
               (fun k => total (map val (filter (fun r0 => String.eqb (key r0) k) (r :: df))))
               (fun k => ((if String.eqb (key r) k then val r else 0)
                          + total (map val (filter (fun r0 => String.eqb (key r0) k) df)))%Z)).
    + rewrite total_map_plus, IH by (intros r0 H0; apply Hin; right; exact H0).
      rewrite total_indicator by (try exact Hnd; apply Hin; left; reflexivity).
      reflexivity.
    + intro k. simpl. destruct (String.eqb (key r) k); reflexivity.
Qed.

Lemma total_ones {A : Type} (l : list A) :
  total (map (fun _ => 1%Z) l) = Z.of_nat (length l).
Proof.
  induction l as [|x l IH]; [reflexivity|].
  cbn [map length]. rewrite Nat2Z.inj_succ, <- IH. unfold total. cbn [fold_right]. lia.
Qed.

Lemma total_perm (l l' : list Z) : Permutation l l' -> total l = total l'.
Proof.
  induction 1 as [|x l l' _ IH|x y l|l l' l'' _ IH1 _ IH2]; simpl; lia.
Qed.

Lemma Qsum_perm (l l' : list Q) : Permutation l l' -> Qsum l == Qsum l'.
Proof.
  induction 1 as [|x l l' _ IH|x y l|l l' l'' _ IH1 _ IH2]; simpl.
  - reflexivity.
  - rewrite IH. reflexivity.
  - ring.
  - rewrite IH1. exact IH2.
Qed.

Lemma Qsum_map_ext {A : Type} (f g : A -> Q) (l : list A) :
  (forall x, In x l -> f x == g x) -> Qsum (map f l) == Qsum (map g l).
Proof.
  induction l as [|x l IH]; simpl; intro H; [reflexivity|].
  rewrite (H x) by (left; reflexivity).
  rewrite IH by (intros y Hy; apply H; right; exact Hy). reflexivity.
Qed.

Lemma Qsum_scaled {A : Type} (f : A -> Z) (l : list A) :
  Qsum (map (fun k => 100 * inject_Z (f k)) l) == 100 * inject_Z (total (map f l)).
Proof.
  induction l as [|x l IH]; simpl; [ring|].
  rewrite IH, inject_Z_plus. ring.
Qed.

Lemma Qsum_abs_bound {A : Type} (f g : A -> Q) (p : Q) (l : list A) :
  (forall x, In x l -> Qabs (f x - g x) <= g x * p) ->
  Qabs (Qsum (map f l) - Qsum (map g l)) <= Qsum (map g l) * p.
Proof.
  induction l as [|x l IH]; intro H.
  - vm_compute. discriminate.
  - change (Qsum (map f (x :: l))) with (f x + Qsum (map f l)).
    change (Qsum (map g (x :: l))) with (g x + Qsum (map g l)).
    pose proof (H x (or_introl eq_refl)) as Hx.
    pose proof (IH (fun y Hy => H y (or_intror Hy))) as Hl.
    set (F := Qsum (map f l)) in *. set (G := Qsum (map g l)) in *.
    apply Qabs_Qle_condition in Hx. apply Qabs_Qle_condition in Hl.
    apply Qabs_Qle_condition. split; lra.
Qed.

(** X9.  The overall churn rate is, up to rounding, the mean of the country
    rates weighted by the rows of each country.  On a non-empty dataset with
    flags 0 or 1 and fewer than 2^53 rows, in which every row names a
    country (a row with a blank country cell belongs to no group and is
    outside this statement), the rates of the chart, each times the number
    of rows of its country, add up to the actual churn rate times the number
    of rows, within 2^-50 of 100 times the number of churned customers.
    The rows of the countries of the chart add up to the rows of the
    dataset, and the chart has at least one and at most that many bars. *)
Theorem overall_rate_is_weighted_mean_of_country_rates
    (argsort : list Q -> list nat) (contract : argsort_contract argsort)
    (D : DataFrame) (Hne : D <> []) (Hwf : wf_frame D = true)
    (Hlen : (Z.of_nat (length D) < 2 ^ 53)%Z) :
  Qabs (Qsum (map (fun e => fin_value (snd e)
                            * inject_Z (Z.of_nat (length (group_rows (fst e) D))))
                  (churn_by_country argsort D))
        - fin_value (actual_churn_rate D) * inject_Z (Z.of_nat (length D)))
  <= 100 * inject_Z (total (map is_churned D)) * B64.pow2 (-50)
  /\ total (map (fun e => Z.of_nat (length (group_rows (fst e) D)))
                (churn_by_country argsort D))
     = Z.of_nat (length D)
  /\ (1 <= length (churn_by_country argsort D) <= length D)%nat.
Proof.
  set (keys := group_keys (map PrimaryCountry_Grouped_Original D)).
  set (S := groupby_mean PrimaryCountry_Grouped_Original is_churned D).
  pose proof (groupby_mean_not_nan PrimaryCountry_Grouped_Original is_churned D) as Hnn.
  fold S in Hnn.
  pose proof (sort_values_desc_perm argsort contract snd S Hnn) as Hp.
  assert (Hnd : NoDup keys) by apply group_keys_NoDup.
  assert (Hcover : forall r, In r D -> In (PrimaryCountry_Grouped_Original r) keys).
  { intros r Hr. apply group_keys_In. apply in_map. exact Hr. }
  assert (Hkeys : Permutation keys (map fst (churn_by_country argsort D))).
  { unfold churn_by_country. fold S. rewrite map_map. simpl.
    unfold keys. rewrite <- (groupby_mean_keys _ is_churned). fold S.
    apply Permutation_map. exact Hp. }
  split; [|split].
  - unfold churn_by_country. fold S. rewrite map_map.
    rewrite <- (Qsum_perm _ _ (Permutation_map _ Hp)).
    unfold S at 1, groupby_mean. fold keys. rewrite map_map. cbn [fst snd].
    match goal with |- Qabs (Qsum (map ?f keys) - _) <= _ => set (a := f) end.
    set (b := fun k => 100 * inject_Z (total (map is_churned (group_rows k D)))).
    assert (Hab : Qabs (Qsum (map a keys) - Qsum (map b keys))
                  <= Qsum (map b keys) * B64.pow2 (-51)).
    { apply Qsum_abs_bound. intros k Hk. unfold a, b, group_rows.
      apply (proj1 (group_keys_In _ _)) in Hk. apply in_map_iff in Hk.
      destruct Hk as [r [Er Hr]].
      assert (Hcol : map is_churned
                       (filter (fun r => String.eqb (PrimaryCountry_Grouped_Original r) k) D)
                     <> []).
      { intro Hnil. apply map_eq_nil in Hnil.
        assert (Hin : In r (filter (fun r => String.eqb
                                     (PrimaryCountry_Grouped_Original r) k) D))
          by (apply filter_In; split; [exact Hr | apply String.eqb_eq; exact Er]).
        rewrite Hnil in Hin. contradiction. }
      destruct (mean_percent _ Hcol) as [q [E [_ [_ He]]]].
      rewrite E. cbn [fin_value].
      pose proof (percent_times_rows _ q Hcol) as H.
      rewrite length_map in H, He. apply H. apply He.
      - apply group_flags. exact Hwf.
      - pose proof (group_length_le D k). lia. }
    assert (Hb : Qsum (map b keys) == 100 * inject_Z (total (map is_churned D))).
    { unfold b. rewrite Qsum_scaled.
      unfold group_rows. rewrite (total_by_key _ _ keys D Hnd Hcover). reflexivity. }
    rewrite Hb in Hab.
    assert (Hcol : map is_churned D <> [])
      by (destruct D; [contradiction | discriminate]).
    destruct (mean_percent (map is_churned D) Hcol) as [q [E [_ [_ He]]]].
    unfold actual_churn_rate. rewrite E. cbn [fin_value].
    pose proof (percent_times_rows _ q Hcol) as H.
    rewrite length_map in H, He.
    specialize (H (He (proj1 (wf_frame_flags D Hwf)) Hlen)).
    set (c := 100 * inject_Z (total (map is_churned D))) in *.
    set (x := Qsum (map a keys)) in *.
    set (y := q * inject_Z (Z.of_nat (length D))) in *.
    assert (Hp51 : B64.pow2 (-51) == 1 # 2251799813685248) by (vm_compute; reflexivity).
    assert (Hp50 : B64.pow2 (-50) == 1 # 1125899906842624) by (vm_compute; reflexivity).
    rewrite Hp51 in Hab, H. rewrite Hp50.
    apply Qabs_Qle_condition in Hab. apply Qabs_Qle_condition in H.
    apply Qabs_Qle_condition. lra.
  - rewrite <- (map_map fst (fun c => Z.of_nat (length (group_rows c D)))).
    rewrite <- (total_perm _ _ (Permutation_map _ Hkeys)).
    unfold group_rows.
    rewrite (map_ext _ (fun k => total (map (fun _ => 1%Z)
               (filter (fun r => String.eqb (PrimaryCountry_Grouped_Original r) k) D))))
      by (intro k; rewrite total_ones; reflexivity).
    rewrite (total_by_key _ _ keys D Hnd Hcover). apply total_ones.
  - rewrite <- (length_map fst), <- (Permutation_length Hkeys). split.
    + destruct D as [|r D]; [contradiction|].
      assert (Hin : In (PrimaryCountry_Grouped_Original r) keys)
        by (apply Hcover; left; reflexivity).
      destruct keys; [contradiction | simpl; lia].
    + rewrite <- (length_map PrimaryCountry_Grouped_Original D).
      apply NoDup_incl_length; [exact Hnd|].
      intros c Hc. apply (proj1 (group_keys_In _ _)). exact Hc.
Qed.

(** Scenario B: three rows at a rate near 100 and five near 40, against
    eight at 62.5. *)
Lemma overall_rate_is_weighted_mean_of_country_rates_witness :
  scenario_B <> [] /\ wf_frame scenario_B = true
  /\ (Z.of_nat (length scenario_B) < 2 ^ 53)%Z
  /\ (1 <= length (churn_by_country argsort_insertion scenario_B)
       <= length scenario_B)%nat.
Proof.
  assert (Hne : scenario_B <> []) by discriminate.
  assert (Hlen : (Z.of_nat (length scenario_B) < 2 ^ 53)%Z) by (vm_compute; reflexivity).
  split; [exact Hne|]. split; [reflexivity|]. split; [exact Hlen|].
  exact (proj2 (proj2 (overall_rate_is_weighted_mean_of_country_rates
                         argsort_insertion argsort_insertion_contract
                         scenario_B Hne eq_refl Hlen))).
Defined.

(** ** What the sorting kernel can change *)

Lemma sorted_perm_unique {A : Type} (R : A -> A -> Prop) (l1 l2 : list A) :
  Permutation l1 l2 -> StronglySorted R l1 -> StronglySorted R l2 ->
  (forall a b, In a l1 -> In b l1 -> R a b -> R b a -> a = b) ->
  l1 = l2.
Proof.
  revert l2. induction l1 as [|a l1 IH]; intros l2 Hp Hs1 Hs2 Hanti.
  - apply Permutation_nil in Hp. auto.
  - destruct l2 as [|b l2];
      [apply Permutation_sym, Permutation_nil in Hp; discriminate|].
    inversion Hs1 as [|? ? Hs1' Ha]; subst.
    inversion Hs2 as [|? ? Hs2' Hb]; subst.
    assert (E : a = b).
    { assert (Hin_a : In a (b :: l2)) by (apply (Permutation_in a Hp); left; reflexivity).
      assert (Hin_b : In b (a :: l1))
        by (apply (Permutation_in b (Permutation_sym Hp)); left; reflexivity).
      destruct Hin_a as [E|Hin_a]; [auto|].
      destruct Hin_b as [E|Hin_b]; [auto|].
      rewrite Forall_forall in Ha, Hb.
      apply Hanti; [left; reflexivity | right; exact Hin_b | apply Ha; exact Hin_b
                   | apply Hb; exact Hin_a]. }
    subst b. f_equal. apply IH; auto.
    + eapply Permutation_cons_inv. exact Hp.
    + intros x y Hx Hy. apply Hanti; right; assumption.
Qed.

Lemma NoDup_map_inj {A B : Type} (f : A -> B) (l : list A) (a b : A) :
  NoDup (map f l) -> In a l -> In b l -> f a = f b -> a = b.
Proof.
  induction l as [|x l IH]; simpl; intros Hnd Ha Hb E; [contradiction|].
  inversion Hnd as [|? ? Hx Hnd']; subst.
  destruct Ha as [Ha|Ha], Hb as [Hb|Hb]; subst; auto.
  - exfalso. apply Hx. rewrite E. apply in_map. exact Hb.
  - exfalso. apply Hx. rewrite <- E. apply in_map. exact Ha.
Qed.

Lemma sort_values_desc_unique {A : Type} (argsort1 argsort2 : list Q -> list nat)
    (by_ : A -> float64) (df : list A) :
  argsort_contract argsort1 -> argsort_contract argsort2 ->
  Forall (fun x => by_ x <> NaN) df ->
  (forall a b, In a df -> In b df ->
     fin_value (by_ a) == fin_value (by_ b) -> a = b) ->
  sort_values argsort1 by_ false df = sort_values argsort2 by_ false df.
Proof.
  intros c1 c2 Hnn Hdiff.
  pose proof (sort_values_desc_perm argsort1 c1 by_ df Hnn) as Hp1.
  pose proof (sort_values_desc_perm argsort2 c2 by_ df Hnn) as Hp2.
  apply (sorted_perm_unique (fun a b => fin_value (by_ b) <= fin_value (by_ a))).
  - apply Permutation_trans with df; [apply Permutation_sym; exact Hp1 | exact Hp2].
  - apply sort_values_desc_sorted; assumption.
  - apply sort_values_desc_sorted; assumption.
  - intros a b Ha Hb Hab Hba.
    apply Hdiff.
    + exact (Permutation_in a (Permutation_sym Hp1) Ha).
    + exact (Permutation_in b (Permutation_sym Hp1) Hb).
    + apply Qle_antisym; assumption.
Qed.

(** X10.  The order of the at-risk list is left to the sorting kernel for
    ties only: when no two rows that pass the threshold have the same
    probability, every kernel that meets the contract gives the same list. *)
Theorem at_risk_list_fixed_when_probabilities_differ
    (argsort1 argsort2 : list Q -> list nat)
    (contract1 : argsort_contract argsort1) (contract2 : argsort_contract argsort2)
    (D : DataFrame) (t : Q)
    (Hdiff : NoDup (map (fun r => Qred (prob_value r))
                        (filter (fun r => float_ge (churn_probability r) t) D))) :
  at_risk_customers_filtered argsort1 D t = at_risk_customers_filtered argsort2 D t.
Proof.
  unfold at_risk_customers_filtered.
  apply sort_values_desc_unique; try assumption.
  - apply filter_ge_not_nan.
  - intros a b Ha Hb E.
    apply (NoDup_map_inj _ _ a b Hdiff Ha Hb).
    apply Qred_complete. exact E.
Qed.

(** Scenario B at threshold 0.5: the five probabilities differ, and the two
    insertion kernels give one list. *)
Lemma at_risk_list_fixed_when_probabilities_differ_witness :
  NoDup (map (fun r => Qred (prob_value r))
             (filter (fun r => float_ge (churn_probability r) 0.5) scenario_B))
  /\ at_risk_customers_filtered argsort_insertion scenario_B 0.5 =
     at_risk_customers_filtered argsort_insertion_late scenario_B 0.5.
Proof.
  assert (H : NoDup (map (fun r => Qred (prob_value r))
                         (filter (fun r => float_ge (churn_probability r) 0.5) scenario_B))).
  { vm_compute. repeat constructor; simpl; intuition discriminate. }
  split; [exact H|].
  exact (at_risk_list_fixed_when_probabilities_differ
           argsort_insertion argsort_insertion_late
           argsort_insertion_contract argsort_insertion_late_contract
           scenario_B 0.5 H).
Defined.

Lemma mean_eq_of_value (col col' : list Z) :
  col <> [] -> col' <> [] ->
  fin_value (mean col) == fin_value (mean col') -> mean col = mean col'.
Proof.
  intros Hne Hne'. destruct col as [|z col]; [contradiction|].
  destruct col' as [|z' col']; [contradiction|].
  unfold mean, fin_value. intro E. f_equal. apply round_canonical. exact E.
Qed.

(** X11.  The same holds for the country chart: when it shows pairwise
    different rates with one kernel that meets the contract, it is the same
    chart, bar for bar, with every other one. *)
Theorem country_chart_fixed_when_rates_differ
    (argsort1 argsort2 : list Q -> list nat)
    (contract1 : argsort_contract argsort1) (contract2 : argsort_contract argsort2)
    (D : DataFrame)
    (Hdiff : NoDup (map snd (churn_by_country argsort1 D))) :
  churn_by_country argsort1 D = churn_by_country argsort2 D.
Proof.
  set (S := groupby_mean PrimaryCountry_Grouped_Original is_churned D).
  pose proof (groupby_mean_not_nan PrimaryCountry_Grouped_Original is_churned D) as Hnn.
  fold S in Hnn.
  assert (HS : NoDup (map snd S)).
  { unfold churn_by_country in Hdiff. fold S in Hdiff.
    rewrite map_map in Hdiff. simpl in Hdiff.
    rewrite <- (map_map snd (fun f => float_mul f 100)) in Hdiff.
    apply NoDup_map_inv in Hdiff.
    apply (Permutation_NoDup
             (Permutation_sym
                (Permutation_map snd (sort_values_desc_perm argsort1 contract1 snd S Hnn)))).
    exact Hdiff. }
  unfold churn_by_country. fold S. f_equal.
  apply sort_values_desc_unique; try assumption.
  intros a b Ha Hb E.
  apply (NoDup_map_inj snd S a b HS Ha Hb).
  destruct (groupby_mean_In _ _ _ _ Ha) as [_ [Ea Hna]].
  destruct (groupby_mean_In _ _ _ _ Hb) as [_ [Eb Hnb]].
  rewrite Ea, Eb in E |- *.
  apply mean_eq_of_value; [| |exact E];
    intro Hnil; apply map_eq_nil in Hnil; contradiction.
Qed.

(** Scenario B: the rates 100 and 40 differ. *)
Lemma country_chart_fixed_when_rates_differ_witness :
  NoDup (map snd (churn_by_country argsort_insertion scenario_B))
  /\ churn_by_country argsort_insertion scenario_B =
     churn_by_country argsort_insertion_late scenario_B.
Proof.
  assert (H : NoDup (map snd (churn_by_country argsort_insertion scenario_B))).
  { vm_compute. repeat constructor; simpl; intuition discriminate. }
  split; [exact H|].
  exact (country_chart_fixed_when_rates_differ
           argsort_insertion argsort_insertion_late
           argsort_insertion_contract argsort_insertion_late_contract
           scenario_B H).
Defined.
